(** * start_services_v2.py: the orchestration core, embedded and verified

    The development follows the script top-down.  Each Python function
    that the properties below talk about is embedded as a Rocq function
    of the same name:

    - file contents are Python [str] values, i.e. sequences of Unicode
      code points ([text := list N]); [str] methods and the two regular
      expressions of the capability toggle are given by executable
      definitions;
    - the file system is reduced to the files the script touches, each an
      [option text] ([None]: the file does not exist);
    - command lines are [list string], built exactly as the script
      concatenates them, and handed to a child process as a list of
      Python texts;
    - the clock, the TCP endpoint, the random source and the external
      commands are an explicit world that is threaded through the
      controller.

    The functions of the Environment Merger, the Secret Provisioner and
    the Capability Toggle Manager give the content a file has after a
    call that returns; the controller adds the file operations, each of
    which can raise, and the child processes.  Standing assumptions: the
    platform's line separator is [\n]; nothing but the script changes the
    files between two of its steps; [Path.exists] and the printing of
    the log answer without raising.                                      *)

From Stdlib Require Import ZArith NArith Lia String Ascii.
From stdpp Require Import base list gmap strings.

Open Scope string_scope.
Open Scope nat_scope.
Open Scope list_scope.

(** ** Python text

    A [str] is a sequence of code points.  Literals are written as Rocq
    strings and converted by [txt]. *)

Module Text.

Abbreviation text := (list N).

Definition txt (s : string) : text :=
  (λ a : ascii, N_of_ascii a) <$> list_ascii_of_string s.

Definition LF : N := 10.
Definition CR : N := 13.
Definition HASH : N := 35.
Definition EQUALS : N := 61.

(** Unicode white space, as [str.strip()] and the pattern class [\s]
    understand it for [str] arguments (CPython's [Py_UNICODE_ISSPACE]). *)
Definition is_space (c : N) : bool :=
  ((9 <=? c) && (c <=? 13) || (28 <=? c) && (c <=? 32)
   || (c =? 133) || (c =? 160) || (c =? 5760)
   || (8192 <=? c) && (c <=? 8202)
   || (c =? 8232) || (c =? 8233) || (c =? 8239) || (c =? 8287)
   || (c =? 12288))%N.

(** [s.startswith(p)] *)
Fixpoint starts_with (p s : text) : bool :=
  match p, s with
  | [], _ => true
  | _ :: _, [] => false
  | a :: p', b :: s' => (a =? b)%N && starts_with p' s'
  end.

(** [p in s] *)
Fixpoint contains (p s : text) : bool :=
  starts_with p s ||
  match s with
  | [] => false
  | _ :: s' => contains p s'
  end.

(** [s.replace(old, new)] for a non-empty [old]: the occurrences of
    [old] are found from left to right and do not overlap.  [skip]
    counts the characters of the current occurrence still to be
    dropped. *)
Fixpoint replace_from (old new : text) (skip : nat) (s : text) : text :=
  match s with
  | [] => []
  | c :: s' =>
      match skip with
      | S k => replace_from old new k s'
      | O => if starts_with old s
             then new ++ replace_from old new (length old - 1) s'
             else c :: replace_from old new 0 s'
      end
  end.

Definition replace (old new s : text) : text := replace_from old new 0 s.

(** Reading a file in text mode (the default [newline=None]): the line
    ends [\r\n] and [\r] arrive as [\n]. *)
Fixpoint universal_newlines (s : text) : text :=
  match s with
  | [] => []
  | c :: s' =>
      if (c =? CR)%N
      then LF :: match s' with
                 | [] => []
                 | d :: s'' => if (d =? LF)%N then universal_newlines s''
                               else universal_newlines s'
                 end
      else c :: universal_newlines s'
  end.

(** Iterating over an open text file: the lines, each with its
    terminating [\n] (the last line may lack one). *)
Fixpoint file_lines (s : text) : list text :=
  match s with
  | [] => []
  | c :: s' =>
      if (c =? LF)%N then [LF] :: file_lines s'
      else match file_lines s' with
           | [] => [[c]]
           | l :: ls => (c :: l) :: ls
           end
  end.

(** [s.lstrip()], [s.rstrip()], [s.strip()], [s.rstrip("\n")] *)
Fixpoint lstrip (s : text) : text :=
  match s with
  | [] => []
  | c :: s' => if is_space c then lstrip s' else s
  end.

Fixpoint rstrip_where (drop : N → bool) (s : text) : text :=
  match s with
  | [] => []
  | c :: s' => match rstrip_where drop s' with
               | [] => if drop c then [] else [c]
               | r => c :: r
               end
  end.

Definition rstrip : text → text := rstrip_where is_space.
Definition strip (s : text) : text := rstrip (lstrip s).
Definition rstrip_newlines : text → text := rstrip_where (λ c, (c =? LF)%N).

(** [s.split(sep, 1)] for a one-character [sep] that occurs in [s]: the
    part before the first [sep] and the part after it. *)
Fixpoint split_once (sep : N) (s : text) : text * text :=
  match s with
  | [] => ([], [])
  | c :: s' => if (c =? sep)%N then ([], s')
               else let '(k, v) := split_once sep s' in (c :: k, v)
  end.

End Text.

Import Text.

(** ** The fragment of [re] used by the capability toggle

    Both patterns are sequences of literal characters and [\s*]; the
    active one is anchored by [^] under [re.MULTILINE].  The matcher is
    the backtracking one of [re]: [\s*] is greedy and gives characters
    back one at a time. *)

Module Re.

Inductive item := Lit (c : N) | Spaces.

Record regex := { at_line_start : bool; items : list item }.

Definition lits (s : string) : list item := Lit <$> txt s.

(** The number of characters of the match that starts at the head of the
    input, if there is one. *)
Fixpoint match_items (p : list item) : text → option nat :=
  match p with
  | [] => λ _, Some 0
  | Lit c :: p' => λ s,
      match s with
      | x :: s' => if (x =? c)%N then S <$> match_items p' s' else None
      | [] => None
      end
  | Spaces :: p' =>
      fix star (s : text) : option nat :=
        match s with
        | x :: s' =>
            if is_space x
            then match star s' with
                 | Some n => Some (S n)
                 | None => match_items p' s
                 end
            else match_items p' s
        | [] => match_items p' []
        end
  end.

(** A match attempt at a position; [bol] says whether the position is the
    start of the text or follows a [\n]. *)
Definition match_at (re : regex) (bol : bool) (s : text) : option nat :=
  if at_line_start re && negb bol then None else match_items (items re) s.

(** [re.search(s)] as a truth value. *)
Fixpoint search_from (re : regex) (bol : bool) (s : text) : bool :=
  bool_decide (is_Some (match_at re bol s)) ||
  match s with
  | [] => false
  | c :: s' => search_from re (c =? LF)%N s'
  end.

Definition search (re : regex) (s : text) : bool := search_from re true s.

(** [re.sub(repl, s)] for a replacement without group references: the
    matches are taken from left to right, each search resuming where the
    previous match ended.  (Neither pattern below matches the empty
    string; an empty match is left in place.) *)
Fixpoint sub_from (re : regex) (repl : text) (skip : nat) (bol : bool)
    (s : text) : text :=
  match s with
  | [] => []
  | c :: s' =>
      match skip with
      | S k => sub_from re repl k (c =? LF)%N s'
      | O =>
          match match_at re bol s with
          | Some (S k) => repl ++ sub_from re repl k (c =? LF)%N s'
          | _ => c :: sub_from re repl 0 (c =? LF)%N s'
          end
      end
  end.

Definition sub (re : regex) (repl s : text) : text := sub_from re repl 0 true s.

(** No part of the pattern can be resumed at the character [h]: every
    non-empty suffix of [p] has a first literal, and it is not [h]. *)
Fixpoint never_starts_with (h : N) (p : list item) : bool :=
  match p with
  | [] => true
  | Lit c :: p' => negb (c =? h)%N && never_starts_with h p'
  | Spaces :: p' =>
      match p' with [] => false | _ => true end && never_starts_with h p'
  end.

End Re.

Import Re.

(** ** Environment Merger (lines 88-115) *)

Module Env.

(** ["=" in line and not line.strip().startswith("#")] *)
Definition is_assignment (line : text) : bool :=
  contains [EQUALS] line && negb (starts_with [HASH] (strip line)).

(** [k, v = line.rstrip("\n").split("=", 1)] *)
Definition assignment (line : text) : text * text :=
  split_once EQUALS (rstrip_newlines line).

Definition key_of (line : text) : text := (assignment line).1.

(** The first loop: the dictionary [existing] of the destination. *)
Definition read_existing (lines : list text) : gmap text text :=
  foldl (λ existing line,
           if is_assignment line
           then let '(k, v) := assignment line in <[k:=v]> existing
           else existing)
        ∅ lines.

(** The second loop: the source lines whose key is not in [existing]. *)
Definition collect_additions (existing : gmap text text)
    (lines : list text) : list text :=
  List.filter
    (λ line, is_assignment line
             && bool_decide (key_of line ∉ dom existing))
    lines.

Definition marker : text := [LF] ++ txt "# Added from root .env" ++ [LF].

(** [additions] as computed from the two files on disk. *)
Definition additions (src dest : text) : list text :=
  collect_additions (read_existing (file_lines (universal_newlines dest)))
                    (file_lines (universal_newlines src)).

(** [prepare_supabase_env]: from the root [.env] and
    [supabase/docker/.env] before the call to the latter after it, and
    whether the call wrote to it.  Text is written as it is ([os.linesep]
    is [\n]); the directory of the destination exists. *)
Definition prepare_supabase_env (src dest : option text)
    : option text * bool :=
  match src with
  | None => (dest, false)
  | Some s =>
      match dest with
      | None => (Some s, true)
      | Some d =>
          match additions s d with
          | [] => (Some d, false)
          | adds => (Some (d ++ marker ++ concat adds), true)
          end
      end
  end.

(** The keys a file defines, read the way both loops read it. *)
Definition has_key (content k : text) : Prop :=
  ∃ line, line ∈ file_lines (universal_newlines content)
          ∧ is_assignment line = true ∧ key_of line = k.

(** The lists that [file_lines] produces: every line but the last ends
    with its only [\n]; the last one may lack it but is not empty. *)
Inductive lines_shape : list text → Prop :=
| shape_nil : lines_shape []
| shape_last l : LF ∉ l → l ≠ [] → lines_shape [l]
| shape_cons l ls : LF ∉ l → lines_shape ls → lines_shape ((l ++ [LF]) :: ls).

End Env.

(** ** Secret Provisioner (lines 117-132) *)

Module Secret.

Definition placeholder : text := txt "ultrasecretkey".

(** [secrets.token_hex(nbytes)] is the hexadecimal rendering of [nbytes]
    bytes from the system's random source, two lowercase digits per byte.
    The random source is an input here: [random i] is the [i]-th byte
    that it hands out to the call. *)
Definition hex_digit (n : N) : N :=
  (if n <? 10 then 48 + n else 87 + n)%N.

Definition hexlify (bytes : list Byte.byte) : text :=
  b ← bytes; [hex_digit (Byte.to_N b / 16); hex_digit (Byte.to_N b mod 16)].

Definition token_bytes (nbytes : nat) (random : nat → Byte.byte)
    : list Byte.byte :=
  random <$> seq 0 nbytes.

Definition token_hex (nbytes : nat) (random : nat → Byte.byte) : text :=
  hexlify (token_bytes nbytes random).

(** [generate_searxng_secret_key]: from [settings-base.yml] and
    [settings.yml] before the call to [settings.yml] after it, and whether
    a secret was written. *)
Definition generate_searxng_secret_key (random : nat → Byte.byte)
    (settings_base settings : option text) : option text * bool :=
  match settings_base with
  | None => (settings, false)
  | Some base =>
      let on_disk := match settings with None => base | Some s => s end in
      let text := universal_newlines on_disk in
      if negb (contains placeholder text) then (Some on_disk, false)
      else
        let secret := token_hex 32 random in
        (Some (replace placeholder secret text), true)
  end.

(** The life of the artifact: the script is run once per element of
    [draws] (the random source of that run); the result is the final
    [settings.yml] and the number of runs that wrote a secret. *)
Fixpoint provision_runs (draws : list (nat → Byte.byte))
    (settings_base settings : option text) : option text * nat :=
  match draws with
  | [] => (settings, 0)
  | d :: ds =>
      let '(settings1, wrote) :=
        generate_searxng_secret_key d settings_base settings in
      let '(settings2, n) := provision_runs ds settings_base settings1 in
      (settings2, (if wrote then 1 else 0) + n)
  end.

(** Whether a run gets as far as the substitution (lines 120-129): the
    base file exists, and the text read from [settings.yml], or from the
    copy of the base file that stands in for a missing [settings.yml],
    holds the placeholder. *)
Definition finds_placeholder (settings_base settings : option text) : bool :=
  match settings_base with
  | None => false
  | Some base =>
      let on_disk := match settings with None => base | Some s => s end in
      contains placeholder (universal_newlines on_disk)
  end.

Definition is_lower_hex (c : N) : bool :=
  ((48 <=? c) && (c <=? 57) || (97 <=? c) && (c <=? 102))%N.

End Secret.

(** ** Capability Toggle Manager (lines 134-169) *)

Module CapDrop.

(** [re.compile(r"#\s*cap_drop:\s*- ALL")] *)
Definition commented_pattern : regex :=
  {| at_line_start := false;
     items := [Lit HASH; Spaces] ++ lits "cap_drop:" ++ [Spaces] ++ lits "- ALL" |}.

(** [re.compile(r"(^\s*cap_drop:\s*- ALL)", re.MULTILINE)]; the group is
    never referred to. *)
Definition active_pattern : regex :=
  {| at_line_start := true;
     items := [Spaces] ++ lits "cap_drop:" ++ [Spaces] ++ lits "- ALL" |}.

Definition disabled_text : text :=
  txt "# cap_drop: - ALL  # temporarily disabled first run".
Definition enabled_text : text := txt "cap_drop: - ALL".

(** Lines 145-153: no running container means first run; otherwise the
    probe of the first listed container decides. *)
Definition first_run_of (containers : list text) (probe_stdout : text) : bool :=
  match containers with
  | [] => true
  | _ :: _ => contains (txt "missing") probe_stdout
  end.

(** Lines 155-166 on the text read from the file: the new content and
    the flag [modified]. *)
Definition toggle (first_run : bool) (content : text) : text * bool :=
  if first_run && search active_pattern content
  then (sub active_pattern disabled_text content, true)
  else if negb first_run && search commented_pattern content
  then (sub commented_pattern enabled_text content, true)
  else (content, false).

(** [adjust_cap_drop_first_run]: [docker-compose.yml] before and after
    the call; the file is written only if [modified]. *)
Definition adjust_cap_drop_first_run (first_run : bool)
    (compose_file : option text) : option text :=
  match compose_file with
  | None => None
  | Some on_disk =>
      let '(content, modified) := toggle first_run (universal_newlines on_disk) in
      if modified then Some content else Some on_disk
  end.

(** A composition document with the declaration as YAML writes it, used
    to exercise the toggle. *)
Definition unlines (ls : list string) : text :=
  concat ((λ l, txt l ++ [LF]) <$> ls).

Definition searxng_service : text :=
  unlines ["services:";
           "  searxng:";
           "    cap_drop:";
           "      - ALL";
           "    cap_add:";
           "      - CHOWN"].

Definition marker_comment : text := txt "  # temporarily disabled first run".

(** The text with every copy of the explanatory marker taken out. *)
Definition without_marker (content : text) : text :=
  replace marker_comment [] content.

End CapDrop.

(** ** Composition Command Builder (lines 171-204) *)

Module Compose.

Definition PROJECT_NAME : string := "localai".

(** Python truthiness of [profile and profile != "none"]. *)
Definition profile_given (profile : string) : bool :=
  bool_decide (profile ≠ "") && bool_decide (profile ≠ "none").

(** [compose_down]: the argument list handed to [run_command]
    (with [allow_fail=True]). *)
Definition compose_down (profile environment : string) : list string :=
  let cmd := ["docker"; "compose"; "-p"; PROJECT_NAME] in
  let cmd := if profile_given profile
             then cmd ++ ["--profile"; profile] else cmd in
  let cmd := cmd ++ ["-f"; "supabase/docker/docker-compose.yml";
                     "-f"; "docker-compose.yml"] in
  let cmd := if bool_decide (environment = "private")
             then cmd ++ ["-f"; "docker-compose.override.private.yml"]
             else if bool_decide (environment = "public")
             then cmd ++ ["-f"; "docker-compose.override.public.yml";
                          "-f"; "docker-compose.override.public.supabase.yml"]
             else cmd in
  cmd ++ ["down"; "--remove-orphans"].

(** [compose_up_supabase]: the dependency project ("up-dependency"). *)
Definition compose_up_supabase (environment : string) : list string :=
  let cmd := ["docker"; "compose"; "-p"; PROJECT_NAME;
              "-f"; "supabase/docker/docker-compose.yml"] in
  let cmd := if bool_decide (environment = "public")
             then cmd ++ ["-f"; "docker-compose.override.public.supabase.yml"]
             else cmd in
  cmd ++ ["up"; "-d"].

(** [compose_up_local_ai]: the local project ("up-local"). *)
Definition compose_up_local_ai (profile environment : string) : list string :=
  let cmd := ["docker"; "compose"; "-p"; PROJECT_NAME;
              "-f"; "docker-compose.yml"] in
  let cmd := if bool_decide (environment = "private")
             then cmd ++ ["-f"; "docker-compose.override.private.yml"]
             else if bool_decide (environment = "public")
             then cmd ++ ["-f"; "docker-compose.override.public.yml"]
             else cmd in
  let cmd := if profile_given profile
             then cmd ++ ["--profile"; profile] else cmd in
  cmd ++ ["up"; "-d"].

(** How the composition tool reads such an argument list: [-f], [-p] and
    [--profile] each take the next word as their value.  [compose_files]
    is the ordered list of [-f] values, [compose_profiles] the list of
    [--profile] values. *)
Fixpoint compose_files (cmd : list string) : list string :=
  match cmd with
  | [] => []
  | flag :: rest =>
      match rest with
      | [] => []
      | value :: rest' =>
          if bool_decide (flag = "-f") then value :: compose_files rest'
          else if bool_decide (flag = "-p") || bool_decide (flag = "--profile")
          then compose_files rest'
          else compose_files rest
      end
  end.

Fixpoint compose_profiles (cmd : list string) : list string :=
  match cmd with
  | [] => []
  | flag :: rest =>
      match rest with
      | [] => []
      | value :: rest' =>
          if bool_decide (flag = "--profile") then value :: compose_profiles rest'
          else if bool_decide (flag = "-p") || bool_decide (flag = "-f")
          then compose_profiles rest'
          else compose_profiles rest
      end
  end.

(** The closed sets offered by the command line (argparse [choices]). *)
Inductive Profile := cpu | gpu_nvidia | gpu_amd | none.
Inductive Environment := private | public.

Definition profile_name (p : Profile) : string :=
  match p with
  | cpu => "cpu" | gpu_nvidia => "gpu-nvidia" | gpu_amd => "gpu-amd"
  | none => "none"
  end.

Definition environment_name (e : Environment) : string :=
  match e with private => "private" | public => "public" end.

(** File names by role. *)
Definition dependency_file : string := "supabase/docker/docker-compose.yml".
Definition local_file : string := "docker-compose.yml".
Definition is_override (f : string) : bool :=
  bool_decide (f ≠ dependency_file) && bool_decide (f ≠ local_file).

End Compose.


Import Env Secret CapDrop Compose.

(** ** Readiness Prober (lines 206-217)

    Time is counted in milliseconds.  The endpoint is given by what each
    successive call of [socket.create_connection] does and how long it
    takes; [time.sleep(2)] advances the clock by two seconds. *)

Module Probe.

Inductive connect_result :=
| Connected        (* the [with] body runs *)
| RaisedOSError    (* refused, timed out, unreachable, unresolved: caught *)
| RaisedOther.     (* any other exception: not caught *)

Record attempt := { result : connect_result; took : N }.

Definition POLL_MS : Z := 2000.
Definition CONNECT_TIMEOUT_MS : Z := 2000.

Record clock := { now : Z; attempts : nat }.

Definition advance (ms : Z) (c : clock) : clock :=
  {| now := now c + ms; attempts := attempts c |}.

Inductive outcome (A : Type) :=
| Returned (a : A)
| Raised
| OutOfFuel.
Arguments Returned {A} a.
Arguments Raised {A}.
Arguments OutOfFuel {A}.

(** The [while] loop; [start] is the value of [time.time()] before it. *)
Fixpoint wait_loop (fuel : nat) (connect : nat → attempt)
    (timeout start : Z) (c : clock) : outcome bool * clock :=
  match fuel with
  | O => (OutOfFuel, c)
  | S fuel' =>
      if (now c - start <? 1000 * timeout)%Z then
        let a := connect (attempts c) in
        let c1 := {| now := now c + Z.of_N (took a);
                     attempts := S (attempts c) |} in
        match result a with
        | Connected => (Returned true, c1)
        | RaisedOSError =>
            wait_loop fuel' connect timeout start (advance POLL_MS c1)
        | RaisedOther => (Raised, c1)
        end
      else (Returned false, c)
  end.

(** Every failed attempt is followed by a sleep of [POLL_MS], so this
    many rounds are enough for any [timeout] (in seconds). *)
Definition rounds (timeout : Z) : nat :=
  S (S (Z.to_nat (1000 * timeout / POLL_MS))).

Definition wait_for_postgres (connect : nat → attempt) (timeout : Z)
    (c : clock) : outcome bool * clock :=
  wait_loop (rounds timeout) connect timeout (now c) c.

End Probe.

Import Probe.

(** ** Orchestration Controller (lines 33-86 and 219-249)

    The controller is a program over a state: the files, the clock and
    the trace of what the run has done so far.  A step returns a value or
    stops the run with an exception ([sys.exit] is one).  Whatever the
    script cannot decide by itself is asked of the world: which programs
    are installed, what a child process does, whether a file operation
    raises, what the endpoint answers, whether a sleep is accepted. *)

Module Controller.

Record Args := {
  profile : string;          (* --profile, default "cpu" *)
  environment : string;      (* --environment, default "private" *)
  skip_clone : bool;
  no_cap_adjust : bool;
  wait_seconds : Z;
  pg_port : Z
}.

(** What a call of [subprocess.run] does. *)
Inductive run_result :=
| Exited (returncode : Z) (stdout : text)
| RaisedNotFound     (* FileNotFoundError *)
| RaisedOtherwise.   (* any other exception: PermissionError,
                        NotADirectoryError, UnicodeDecodeError, ... *)

(** The file operations of the three preparation steps. *)
Inductive io_op :=
| CopyEnv         (* line 96: shutil.copyfile(src, dest) *)
| ReadEnvDest     (* lines 100-104 *)
| ReadEnvSrc      (* lines 106-111 *)
| AppendEnv       (* lines 113-115 *)
| CopySettings    (* line 125: shutil.copyfile(settings_base, settings) *)
| ReadSettings    (* line 126 *)
| WriteSettings   (* line 131 *)
| ReadCompose     (* line 139 *)
| WriteCompose.   (* line 169 *)

Record World := {
  which : string → bool;                 (* shutil.which(b) is not None *)
  process : nat → list text → run_result;
    (* subprocess.run of an argument list, called when the trace has
       that many entries *)
  repo_exists : bool;                    (* root / "supabase" exists *)
  io_raises : io_op → bool;              (* the operation raises ... *)
  io_leaves : io_op → option text;
    (* ... and, for a copy or a write, leaves its target in this state *)
  random_bytes : nat → Byte.byte;        (* what os.urandom hands out *)
  connect : string → Z → nat → attempt;  (* host, port, n-th attempt *)
  sleep_raises : Z → bool                (* time.sleep(seconds) raises *)
}.

Record Files := {
  root_env : option text;        (* .env *)
  supabase_env : option text;    (* supabase/docker/.env *)
  settings_base : option text;   (* searxng/settings-base.yml *)
  settings : option text;        (* searxng/settings.yml *)
  compose_file : option text     (* docker-compose.yml *)
}.

Inductive event :=
| Ran (args : list text)           (* subprocess.run was called on [args] *)
| Probed (port : Z) (ready : bool) (* wait_for_postgres returned *)
| Slept (seconds : Z).             (* the fallback sleep returned *)

Record State := { files : Files; time : clock; trace : list event }.

Definition M (A : Type) : Type := State → outcome A * State.

#[export] Instance M_ret : MRet M := λ A a st, (Returned a, st).
#[export] Instance M_bind : MBind M := λ A B f m st,
  match m st with
  | (Returned a, st') => f a st'
  | (Raised, st') => (Raised, st')
  | (OutOfFuel, st') => (OutOfFuel, st')
  end.

(** [sys.exit(1)], or an exception that nothing catches. *)
Definition exit {A} : M A := λ st, (Raised, st).
Definition when (b : bool) (m : M unit) : M unit := if b then m else mret ().
Definition get_files : M Files := λ st, (Returned (files st), st).

(** An argument list of string literals, as Python text. *)
Definition argv (cmd : list string) : list text := txt <$> cmd.

Definition called (args : list text) (st : State) : State :=
  {| files := files st; time := time st; trace := trace st ++ [Ran args] |}.

(** [subprocess.run(args, capture_output=True, text=True)]: the return
    code and the standard output; an exception is not caught. *)
Definition subprocess_run (w : World) (args : list text) : M (Z * text) :=
  λ st,
    match process w (length (trace st)) args with
    | Exited returncode stdout => (Returned (returncode, stdout), called args st)
    | RaisedNotFound | RaisedOtherwise => (Raised, called args st)
    end.

(** [run_command(cmd, allow_fail)]: [check=True] turns a non-zero return
    code into [CalledProcessError]; this and [FileNotFoundError] are the
    two exceptions caught, and raised again unless [allow_fail]. *)
Definition run_command (w : World) (cmd : list string) (allow_fail : bool)
    : M bool :=
  λ st,
    let caught := if allow_fail then Returned false else Raised in
    match process w (length (trace st)) (argv cmd) with
    | Exited returncode _ =>
        if (returncode =? 0)%Z then (Returned true, called (argv cmd) st)
        else (caught, called (argv cmd) st)
    | RaisedNotFound => (caught, called (argv cmd) st)
    | RaisedOtherwise => (Raised, called (argv cmd) st)
    end.

Definition docker_compose_version : list text :=
  argv ["docker"; "compose"; "version"].

Definition ensure_binaries (w : World) : M unit :=
  match List.filter (λ b, negb (which w b)) ["git"; "docker"] with
  | _ :: _ => exit
  | [] =>
      res ← subprocess_run w docker_compose_version;
      if negb (res.1 =? 0)%Z then exit else mret ()
  end.

Definition git_ls_remote (branch : string) : list text :=
  argv ["git"; "ls-remote"; "--heads";
        "https://github.com/supabase/supabase.git"; branch].

(** The [for] loop of [resolve_supabase_branch] over the branches still
    to be tried; running out of them is fatal. *)
Fixpoint try_branches (w : World) (branches : list string) : M string :=
  match branches with
  | [] => exit
  | branch :: rest =>
      r ← subprocess_run w (git_ls_remote branch);
      if contains (txt branch) r.2 then mret branch
      else try_branches w rest
  end.

Definition resolve_supabase_branch (w : World) : M string :=
  try_branches w ["master"; "main"].

Definition clone_or_update_supabase (w : World) : M unit :=
  if negb (repo_exists w) then
    run_command w ["git"; "clone"; "--filter=blob:none"; "--no-checkout";
                   "https://github.com/supabase/supabase.git"; "supabase"] false;;
    branch ← resolve_supabase_branch w;
    run_command w ["git"; "sparse-checkout"; "init"; "--cone"] false;;
    run_command w ["git"; "sparse-checkout"; "set"; "docker"] false;;
    run_command w ["git"; "checkout"; branch] false;;
    mret ()
  else
    run_command w ["git"; "fetch"; "--prune"] true;;
    run_command w ["git"; "pull"; "--ff-only"] false;;
    mret ().

(** Reading a file that exists: nothing changes, but the call can raise. *)
Definition read_file (w : World) (op : io_op) : M unit := λ st,
  if io_raises w op then (Raised, st) else (Returned (), st).

(** Copying to a file, writing it or appending to it: [content] is the
    whole file after a call that returns; a call that raises leaves what
    the world says. *)
Definition write_file (w : World) (op : io_op)
    (put : option text → Files → Files) (content : text) : M unit := λ st,
  let leave v := {| files := put v (files st); time := time st;
                    trace := trace st |} in
  if io_raises w op then (Raised, leave (io_leaves w op))
  else (Returned (), leave (Some content)).

Definition put_supabase_env (v : option text) (fs : Files) : Files :=
  {| root_env := root_env fs; supabase_env := v;
     settings_base := settings_base fs; settings := settings fs;
     compose_file := compose_file fs |}.

Definition put_settings (v : option text) (fs : Files) : Files :=
  {| root_env := root_env fs; supabase_env := supabase_env fs;
     settings_base := settings_base fs; settings := v;
     compose_file := compose_file fs |}.

Definition put_compose_file (v : option text) (fs : Files) : Files :=
  {| root_env := root_env fs; supabase_env := supabase_env fs;
     settings_base := settings_base fs; settings := settings fs;
     compose_file := v |}.

(** [prepare_supabase_env] (lines 88-115) with its file operations. *)
Definition prepare_env (w : World) : M unit :=
  fs ← get_files;
  match root_env fs with
  | None => mret ()
  | Some src =>
      match supabase_env fs with
      | None => write_file w CopyEnv put_supabase_env src
      | Some dest =>
          read_file w ReadEnvDest;;
          read_file w ReadEnvSrc;;
          match additions src dest with
          | [] => mret ()
          | adds => write_file w AppendEnv put_supabase_env
                      (dest ++ marker ++ concat adds)
          end
      end
  end.

(** [generate_searxng_secret_key] (lines 117-132) with its file
    operations. *)
Definition provision_secret (w : World) : M unit :=
  fs ← get_files;
  match settings_base fs with
  | None => mret ()
  | Some base =>
      match settings fs with
      | None => write_file w CopySettings put_settings base
      | Some _ => mret ()
      end;;
      read_file w ReadSettings;;
      fs' ← get_files;
      match settings fs' with
      | None => exit
      | Some on_disk =>
          let text := universal_newlines on_disk in
          if negb (contains placeholder text) then mret ()
          else
            let secret := token_hex 32 (random_bytes w) in
            write_file w WriteSettings put_settings
              (replace placeholder secret text)
      end
  end.

(** [str.splitlines()]: the line boundaries of Python text; [\r\n] is
    one boundary. *)
Definition is_line_boundary (c : N) : bool :=
  ((10 <=? c) && (c <=? 13) || (28 <=? c) && (c <=? 30)
   || (c =? 133) || (c =? 8232) || (c =? 8233))%N.

Fixpoint splitlines (s : text) : list text :=
  match s with
  | [] => []
  | c :: s' =>
      if is_line_boundary c then
        [] :: match s' with
              | d :: s'' => if (c =? CR)%N && (d =? LF)%N then splitlines s''
                            else splitlines s'
              | [] => []
              end
      else match splitlines s' with
           | [] => [[c]]
           | l :: ls => (c :: l) :: ls
           end
  end.

(** Line 145: [[c.strip() for c in ps.stdout.splitlines() if c.strip()]] *)
Definition container_names (stdout : text) : list text :=
  List.filter (λ c, negb (bool_decide (c = []))) (strip <$> splitlines stdout).

Definition docker_ps : list text :=
  argv ["docker"; "ps"; "--filter"; "name=searxng"; "--format"; "{{.Names}}"].

Definition docker_exec (name : text) : list text :=
  [txt "docker"; txt "exec"; name; txt "sh"; txt "-c";
   txt "[ -f /etc/searxng/uwsgi.ini ] && echo found || echo missing"].

(** [adjust_cap_drop_first_run] (lines 134-169) with its file operations
    and its two child processes. *)
Definition adjust_cap_drop (w : World) : M unit :=
  fs ← get_files;
  match compose_file fs with
  | None => mret ()
  | Some on_disk =>
      read_file w ReadCompose;;
      ps ← subprocess_run w docker_ps;
      first_run ←
        match container_names ps.2 with
        | [] => mret true
        | name :: _ =>
            probe ← subprocess_run w (docker_exec name);
            mret (contains (txt "missing") probe.2)
        end;
      let '(content, modified) := toggle first_run (universal_newlines on_disk) in
      if modified then write_file w WriteCompose put_compose_file content
      else mret ()
  end.

(** [wait_for_postgres(port=...)]: host and timeout take their defaults. *)
Definition probe (w : World) (port : Z) : M bool := λ st,
  let '(r, c) := wait_for_postgres (connect w "127.0.0.1" port) 120 (time st) in
  let st' := {| files := files st; time := c; trace := trace st |} in
  match r with
  | Returned ready =>
      (Returned ready,
       {| files := files st; time := c; trace := trace st ++ [Probed port ready] |})
  | Raised => (Raised, st')
  | OutOfFuel => (OutOfFuel, st')
  end.

(** [time.sleep(seconds)] of line 246: it raises for an argument that
    the platform's clock cannot hold. *)
Definition sleep (w : World) (seconds : Z) : M unit := λ st,
  if sleep_raises w seconds then (Raised, st)
  else (Returned (),
        {| files := files st; time := advance (1000 * seconds) (time st);
           trace := trace st ++ [Slept seconds] |}).

Definition main (w : World) (args : Args) : M unit :=
  ensure_binaries w;;
  when (negb (skip_clone args)) (clone_or_update_supabase w);;
  prepare_env w;;
  provision_secret w;;
  when (negb (no_cap_adjust args)) (adjust_cap_drop w);;
  run_command w (compose_down (profile args) (environment args)) true;;
  run_command w (compose_up_supabase (environment args)) false;;
  ready ← probe w (pg_port args);
  when (negb ready && (0 <? wait_seconds args)%Z) (sleep w (wait_seconds args));;
  run_command w (compose_up_local_ai (profile args) (environment args)) false;;
  mret ().

(** The version-control commands of [clone_or_update_supabase] and
    [resolve_supabase_branch]. *)
Definition git_clone : list string :=
  ["git"; "clone"; "--filter=blob:none"; "--no-checkout";
   "https://github.com/supabase/supabase.git"; "supabase"].
Definition git_fetch : list string := ["git"; "fetch"; "--prune"].
Definition git_pull : list string := ["git"; "pull"; "--ff-only"].

Definition git_commands : list (list text) :=
  [argv git_clone;
   git_ls_remote "master";
   git_ls_remote "main";
   argv ["git"; "sparse-checkout"; "init"; "--cone"];
   argv ["git"; "sparse-checkout"; "set"; "docker"];
   argv ["git"; "checkout"; "master"];
   argv ["git"; "checkout"; "main"];
   argv git_fetch;
   argv git_pull].

(** The two child processes of [adjust_cap_drop_first_run]. *)
Definition inspects_container (args : list text) : Prop :=
  args = docker_ps ∨ ∃ name, args = docker_exec name.

(** The events of a run that are child processes. *)
Definition is_Ran (e : event) : bool :=
  match e with Ran _ => true | _ => false end.

(** The compensation after the probe: one sleep, if the probe failed and
    [--wait-seconds] is positive. *)
Definition fallback (args : Args) (ready : bool) : list event :=
  if negb ready && (0 <? wait_seconds args)%Z
  then [Slept (wait_seconds args)] else [].

(** Whether that sleep is due and raises. *)
Definition fallback_raises (w : World) (args : Args) (ready : bool) : bool :=
  negb ready && (0 <? wait_seconds args)%Z && sleep_raises w (wait_seconds args).

(** A first run on a fresh checkout whose dependency never answers:
    every connection attempt is refused after a millisecond.  Every
    program is installed and every child process succeeds; the remote
    lists the branch asked for; no file operation raises; a sleep raises
    from 9223372036 seconds on. *)
Definition refused_at_once : nat → attempt :=
  λ _, {| result := RaisedOSError; took := 1 |}.

Definition fresh_world : World :=
  {| which := λ _, true;
     process := λ _ args,
       Exited 0 (if bool_decide (args !! 1 = Some (txt "ls-remote"))
                 then txt "refs/heads/" ++ default [] (last args) ++ [LF]
                 else []);
     repo_exists := false;
     io_raises := λ _, false;
     io_leaves := λ _, None;
     random_bytes := λ _, Byte.x5a;
     connect := λ _ _, refused_at_once;
     sleep_raises := λ seconds, bool_decide (9223372036 ≤ seconds)%Z |}.

Definition default_args : Args :=
  {| profile := "cpu"; environment := "private"; skip_clone := false;
     no_cap_adjust := false; wait_seconds := 0; pg_port := 54322 |}.

(** [--wait-seconds 9223372036] *)
Definition long_wait_args : Args :=
  {| profile := "cpu"; environment := "private"; skip_clone := false;
     no_cap_adjust := false; wait_seconds := 9223372036; pg_port := 54322 |}.

(** [--skip-clone] in a directory without [supabase/docker/]: the copy
    of the root [.env] raises and creates nothing. *)
Definition skip_clone_args : Args :=
  {| profile := "cpu"; environment := "private"; skip_clone := true;
     no_cap_adjust := false; wait_seconds := 0; pg_port := 54322 |}.

Definition world_without_checkout : World :=
  {| which := which fresh_world;
     process := process fresh_world;
     repo_exists := false;
     io_raises := λ op, match op with CopyEnv => true | _ => false end;
     io_leaves := λ _, None;
     random_bytes := random_bytes fresh_world;
     connect := connect fresh_world;
     sleep_raises := sleep_raises fresh_world |}.

Definition state_with_root_env : State :=
  {| files := {| root_env := Some (txt "POSTGRES_PASSWORD=secret");
                 supabase_env := None;
                 settings_base := None; settings := None;
                 compose_file := None |};
     time := {| now := 0; attempts := 0 |};
     trace := [] |}.

Definition fresh_state : State :=
  {| files := {| root_env := None; supabase_env := None;
                 settings_base := None; settings := None;
                 compose_file := None |};
     time := {| now := 0; attempts := 0 |};
     trace := [] |}.

(** A step whose events all satisfy [ok], however it ends, and which
    does end. *)
Definition emits_only (ok : event → Prop) {A} (m : M A) : Prop :=
  ∀ st, ∃ added,
    trace (m st).2 = trace st ++ added
    ∧ Forall ok added
    ∧ (m st).1 ≠ OutOfFuel.

(** A step that only runs child processes: it adds nothing else to the
    trace. *)
Definition only_commands {A} (m : M A) : Prop :=
  emits_only (λ e, is_Ran e = true) m.

(** A run that, once the probe has answered, goes on to the local
    start-up whatever the answer, unless the fallback sleep raises. *)
Definition starts_local_after_probe (w : World) (args : Args) {A} (m : M A)
    : Prop :=
  ∀ st, ∃ added,
    trace (m st).2 = trace st ++ added
    ∧ (m st).1 ≠ OutOfFuel
    ∧ (Forall (λ e, is_Ran e = true) added
       ∨ ∃ before ready,
           Forall (λ e, is_Ran e = true) before
           ∧ added = before ++ [Probed (pg_port args) ready]
                     ++ (if fallback_raises w args ready then []
                         else fallback args ready
                              ++ [Ran (argv (compose_up_local_ai
                                               (profile args)
                                               (environment args)))])).

End Controller.


(** ** Further readings of commands, probes and runs

    Notions that the later properties are stated with. *)

Module Readings.

Import Controller.

(** The project a composition command addresses: the values of [-p]. *)
Fixpoint compose_projects (cmd : list string) : list string :=
  match cmd with
  | [] => []
  | flag :: rest =>
      match rest with
      | [] => []
      | value :: rest' =>
          if bool_decide (flag = "-p") then value :: compose_projects rest'
          else if bool_decide (flag = "-f") || bool_decide (flag = "--profile")
          then compose_projects rest'
          else compose_projects rest
      end
  end.

(** The time the [n] connection attempts from the [from]-th on take. *)
Fixpoint spent (connect : nat → attempt) (from n : nat) : Z :=
  match n with
  | O => 0
  | S n' => Z.of_N (took (connect from)) + spent connect (S from) n'
  end.

(** One turn of the first loop of [prepare_supabase_env], and the
    dictionary that the script reads from a file. *)
Definition record_line (existing : gmap text text) (line : text)
    : gmap text text :=
  if is_assignment line
  then let '(k, v) := assignment line in <[k:=v]> existing
  else existing.

Definition env_dict (content : text) : gmap text text :=
  read_existing (file_lines (universal_newlines content)).

(** The same world with other child processes. *)
Definition with_process (w : World) (f : nat → list text → run_result)
    : World :=
  {| which := which w;
     process := f;
     repo_exists := repo_exists w;
     io_raises := io_raises w;
     io_leaves := io_leaves w;
     random_bytes := random_bytes w;
     connect := connect w;
     sleep_raises := sleep_raises w |}.

(** The three composition commands of a run. *)
Definition composition_commands (args : Args) : list (list text) :=
  [argv (compose_down (profile args) (environment args));
   argv (compose_up_supabase (environment args));
   argv (compose_up_local_ai (profile args) (environment args))].

(** The events a run with the arguments [args] may add to the trace. *)
Definition known_event (args : Args) (e : event) : Prop :=
  match e with
  | Ran a =>
      a = docker_compose_version
      ∨ (skip_clone args = false ∧ a ∈ git_commands)
      ∨ (no_cap_adjust args = false ∧ inspects_container a)
      ∨ a ∈ composition_commands args
  | Probed port _ => port = pg_port args
  | Slept seconds => seconds = wait_seconds args ∧ (0 < seconds)%Z
  end.

(** The child processes of the steps before the teardown: the check of
    the composition plugin, version control, and the inspection of the
    running container. *)
Definition prepares (e : event) : Prop :=
  ∃ a, e = Ran a
       ∧ (a = docker_compose_version ∨ a ∈ git_commands
          ∨ inspects_container a).

(** What tells a composition command from the child processes of the
    preparation: its second and third word. *)
Definition addresses_project (a : list text) : Prop :=
  a !! 1 = Some (txt "compose") ∧ a !! 2 = Some (txt "-p").

(** A step that stops with an exception, and whose events all satisfy
    [ok]. *)
Definition stops_with (ok : event → Prop) {A} (m : M A) : Prop :=
  ∀ st, ∃ added,
    trace (m st).2 = trace st ++ added ∧ Forall ok added
    ∧ (m st).1 = Raised.

(** A step that leaves one of the files as it is, and one that leaves
    them all. *)
Definition keeps (field : Files → option text) {A} (m : M A) : Prop :=
  ∀ st, field (files (m st).2) = field (files st).

Definition same_files {A} (m : M A) : Prop :=
  ∀ st, files (m st).2 = files st.

(** The child process called on [cmd] when the trace had [n] entries
    ended with return code 0. *)
Definition succeeded (w : World) (n : nat) (cmd : list string) : Prop :=
  ∃ stdout, process w n (argv cmd) = Exited 0 stdout.

(** A child process that [run_command] forgives under [allow_fail]. *)
Definition forgiven (r : run_result) : Prop := r ≠ RaisedOtherwise.

(** A run that, if it returns, has torn down, started the dependency,
    probed it and started the local project, in this order and after
    nothing but preparing child processes. *)
Definition completes_in_order (w : World) (args : Args) {A} (m : M A)
    : Prop :=
  ∀ st a st', m st = (Returned a, st') →
    ∃ pre ready,
      Forall prepares pre
      ∧ trace st'
        = trace st ++ pre
          ++ [Ran (argv (compose_down (profile args) (environment args)));
              Ran (argv (compose_up_supabase (environment args)));
              Probed (pg_port args) ready]
          ++ fallback args ready
          ++ [Ran (argv (compose_up_local_ai (profile args)
                           (environment args)))]
      ∧ succeeded w (length (trace st ++ pre) + 1)
          (compose_up_supabase (environment args))
      ∧ succeeded w (length (trace st ++ pre) + 3
                     + length (fallback args ready))
          (compose_up_local_ai (profile args) (environment args)).

(** The files after the three preparation steps of [main] (lines
    234-237), as the functions of the Environment Merger, the Secret
    Provisioner and the Capability Toggle Manager give them. *)
Definition prepared_files (w : World) (args : Args) (first_run : bool)
    (fs : Files) : Files :=
  {| root_env := root_env fs;
     supabase_env := (prepare_supabase_env (root_env fs) (supabase_env fs)).1;
     settings_base := settings_base fs;
     settings := (generate_searxng_secret_key (random_bytes w)
                    (settings_base fs) (settings fs)).1;
     compose_file :=
       if no_cap_adjust args then compose_file fs
       else adjust_cap_drop_first_run first_run (compose_file fs) |}.

(** A checkout with every file in place: a root [.env] with a variable
    that [supabase/docker/.env] lacks, the base settings with the
    placeholder, no [settings.yml] yet, and the composition document
    with the active declaration. *)
Definition stocked_state : State :=
  {| files := {| root_env := Some (unlines ["POSTGRES_PASSWORD=secret";
                                            "JWT_SECRET=token"]);
                 supabase_env := Some (unlines ["POSTGRES_PASSWORD=other"]);
                 settings_base := Some (unlines ["server:";
                                                 "  secret_key: ultrasecretkey"]);
                 settings := None;
                 compose_file := Some searxng_service |};
     time := {| now := 0; attempts := 0 |};
     trace := [] |}.

End Readings.

(** * Properties *)

(** ** Composition Command Builder *)

Section ComposeFacts.

Implicit Types environment profile : string.

Lemma compose_files_down profile environment :
  compose_files (compose_down profile environment) =
  [dependency_file; local_file] ++
  (if bool_decide (environment = "private")
   then ["docker-compose.override.private.yml"]
   else if bool_decide (environment = "public")
   then ["docker-compose.override.public.yml";
         "docker-compose.override.public.supabase.yml"]
   else []).
Proof.
  unfold compose_down.
  destruct (profile_given profile);
    repeat case_bool_decide; reflexivity.
Qed.

Lemma compose_files_up_supabase environment :
  compose_files (compose_up_supabase environment) =
  dependency_file ::
  (if bool_decide (environment = "public")
   then ["docker-compose.override.public.supabase.yml"] else []).
Proof. unfold compose_up_supabase. case_bool_decide; reflexivity. Qed.

Lemma compose_files_up_local_ai profile environment :
  compose_files (compose_up_local_ai profile environment) =
  local_file ::
  (if bool_decide (environment = "private")
   then ["docker-compose.override.private.yml"]
   else if bool_decide (environment = "public")
   then ["docker-compose.override.public.yml"]
   else []).
Proof.
  unfold compose_up_local_ai.
  destruct (profile_given profile);
    repeat case_bool_decide; reflexivity.
Qed.

Lemma compose_profiles_up_local_ai profile environment :
  compose_profiles (compose_up_local_ai profile environment) =
  if profile_given profile then [profile] else [].
Proof.
  unfold compose_up_local_ai.
  destruct (profile_given profile);
    repeat case_bool_decide; reflexivity.
Qed.

End ComposeFacts.

(** C1 (as stated): the override of the public environment is started
    by [up-local] but is not among the files of a private teardown. *)
Lemma teardown_misses_other_environment :
  ¬ (compose_files (compose_up_local_ai (profile_name cpu) (environment_name public))
       ⊆ compose_files (compose_down (profile_name cpu) (environment_name private))).
Proof.
  replace (compose_files (compose_up_local_ai _ _))
    with [local_file; "docker-compose.override.public.yml"]
    by (by vm_compute).
  replace (compose_files (compose_down _ _))
    with [dependency_file; local_file; "docker-compose.override.private.yml"]
    by (by vm_compute).
  intros Hsub.
  specialize (Hsub "docker-compose.override.public.yml").
  rewrite !elem_of_cons, elem_of_nil in Hsub.
  destruct Hsub as [?|[?|[?|[]]]]; [by right; left|..]; discriminate.
Qed.

(** C1 (amended): for every environment and any two profiles, the files
    of the teardown command contain the files of the dependency start-up
    and of the local start-up of that same environment. *)
Theorem teardown_covers_same_environment (environment profile profile' : string) :
  compose_files (compose_up_supabase environment)
    ⊆ compose_files (compose_down profile environment)
  ∧ compose_files (compose_up_local_ai profile' environment)
    ⊆ compose_files (compose_down profile environment).
Proof.
  rewrite compose_files_down, compose_files_up_supabase,
    compose_files_up_local_ai.
  repeat case_bool_decide; subst; try done; cbn [app];
    split; intros f; rewrite !elem_of_cons; tauto.
Qed.

(** C8: the dependency start-up names the dependency project's file only,
    followed by its one public override exactly when the environment is
    [public], and carries no profile filter; the public local start-up
    names exactly one override file and carries the profile filter exactly
    when the profile is not [none]. *)
Theorem up_commands_shape (environment : string) (p : Profile) :
  compose_files (compose_up_supabase environment) =
    (if bool_decide (environment = "public")
     then [dependency_file; "docker-compose.override.public.supabase.yml"]
     else [dependency_file])
  ∧ ("--profile" ∉ compose_up_supabase environment)
  ∧ (compose_profiles (compose_up_supabase environment) = [])
  ∧ (List.filter is_override
       (compose_files (compose_up_local_ai (profile_name p) "public"))
     = ["docker-compose.override.public.yml"])
  ∧ (compose_profiles (compose_up_local_ai (profile_name p) "public")
     = match p with none => [] | _ => [profile_name p] end).
Proof.
  split; [|split; [|split; [|split]]].
  - rewrite compose_files_up_supabase. by case_bool_decide.
  - unfold compose_up_supabase.
    case_bool_decide; cbn [app]; rewrite !elem_of_cons, elem_of_nil;
      intros H'; repeat (destruct H' as [H'|H']; [discriminate H'|]);
      exact H'.
  - unfold compose_up_supabase. by case_bool_decide.
  - by destruct p.
  - rewrite compose_profiles_up_local_ai. by destruct p.
Qed.

(** ** Text *)

Section TextFacts.

Implicit Types s p q old new : text.

Lemma starts_with_app p s : starts_with p (p ++ s) = true.
Proof. induction p as [|a p IH]; [done|]. cbn. by rewrite N.eqb_refl. Qed.

Lemma starts_with_prefix p s :
  starts_with p s = true → ∃ r, s = p ++ r.
Proof.
  revert s. induction p as [|a p IH]; intros s H; [by exists s|].
  destruct s as [|b s]; [done|]. cbn in H.
  apply andb_prop in H as [Hab H]. apply N.eqb_eq in Hab as ->.
  destruct (IH _ H) as [r ->]. by exists r.
Qed.

Lemma starts_with_cons a p b s :
  starts_with (a :: p) (b :: s) = (a =? b)%N && starts_with p s.
Proof. done. Qed.

(** A prefix that fits into [n] consists of characters of [n]. *)
Lemma starts_with_within q n s c :
  starts_with q (n ++ s) = true → length q ≤ length n → c ∈ q → c ∈ n.
Proof.
  revert n. induction q as [|a q IH]; intros n H Hlen Hc.
  - by apply elem_of_nil in Hc.
  - destruct n as [|b n]; [cbn in Hlen; lia|].
    cbn in H. apply andb_prop in H as [Hab H].
    apply N.eqb_eq in Hab as ->.
    apply elem_of_cons in Hc as [->|Hc]; [by left|].
    right. apply (IH n); [done|cbn in Hlen; lia|done].
Qed.

Lemma contains_cons p c s :
  contains p (c :: s) = starts_with p (c :: s) || contains p s.
Proof. done. Qed.

(** Skipping an occurrence. *)
Lemma replace_from_skip old new x s :
  replace_from old new (length x) (x ++ s) = replace_from old new 0 s.
Proof.
  induction x as [|c x IH]; [|done].
  cbn. by destruct s.
Qed.

Lemma replace_from_elem old new k s c :
  c ∈ replace_from old new k s → c ∈ s ∨ c ∈ new.
Proof.
  revert k. induction s as [|a s IH]; intros k H; [by left|].
  cbn [replace_from] in H. destruct k as [|k].
  - destruct (starts_with old (a :: s)).
    + apply elem_of_app in H as [H|H]; [by right|].
      destruct (IH _ H); [left; by right|by right].
    + apply elem_of_cons in H as [->|H]; [left; by left|].
      destruct (IH _ H); [left; by right|by right].
  - destruct (IH _ H); [left; by right|by right].
Qed.

Section NoNewOccurrence.

(** [old] is [u :: mid ++ [y]]; neither its first nor its last character
    occurs in [new], and [new] is longer than [mid]. *)
Variables (u y : N) (mid new : text).
Hypothesis u_fresh : u ∉ new.
Hypothesis y_fresh : y ∉ new.
Hypothesis new_long : length mid < length new.

Local Abbreviation old := (u :: mid ++ [y]).

Lemma prefix_survives q s :
  length q < length new →
  starts_with (q ++ [y]) (replace_from old new 0 s) = true →
  starts_with (q ++ [y]) s = true.
Proof.
  revert s. induction q as [|a q IH]; intros s Hlen H.
  - destruct s as [|c s]; [done|]. cbn [replace_from] in H.
    destruct (starts_with old (c :: s)); [|done].
    exfalso. apply y_fresh.
    apply (starts_with_within [y] new _ y) in H; [done|cbn; lia|by left].
  - destruct s as [|c s]; [done|]. cbn [replace_from] in H.
    destruct (starts_with old (c :: s)).
    + exfalso. apply y_fresh.
      apply (starts_with_within _ new _ y) in H; [done| |].
      * rewrite length_app. cbn in *. lia.
      * apply elem_of_app. right. by left.
    + cbn in H |- *. apply andb_prop in H as [-> H]. cbn.
      apply IH; [cbn in Hlen; lia|done].
Qed.

Lemma no_occurrence_behind_new t :
  contains old t = false → contains old (new ++ t) = false.
Proof.
  intros Ht. clear new_long y_fresh.
  induction new as [|b n IH]; [done|].
  cbn [app]. rewrite contains_cons, IH.
  - rewrite starts_with_cons.
    destruct (N.eqb_spec u b) as [->|]; [|done].
    exfalso. apply u_fresh. by left.
  - intros Hin. apply u_fresh. by right.
Qed.

Lemma replace_from_clean k s :
  contains old (replace_from old new k s) = false.
Proof.
  revert k. induction s as [|c s IH]; intros k; [done|].
  cbn [replace_from]. destruct k as [|k]; [|apply IH].
  destruct (starts_with old (c :: s)) eqn:Hhere.
  - apply no_occurrence_behind_new, IH.
  - rewrite contains_cons, IH, orb_false_r.
    destruct (starts_with old (c :: replace_from old new 0 s)) eqn:H; [|done].
    rewrite starts_with_cons in H, Hhere.
    apply andb_prop in H as [Hu H].
    apply prefix_survives in H; [|done].
    by rewrite Hu, H in Hhere.
Qed.

End NoNewOccurrence.

(** Text without [\r] is read as it is. *)
Lemma universal_newlines_id s : CR ∉ s → universal_newlines s = s.
Proof.
  induction s as [|c s IH]; [done|]. intros Hcr. cbn.
  destruct (N.eqb_spec c CR) as [->|_].
  - exfalso. apply Hcr. by left.
  - f_equal. apply IH. intros Hin. apply Hcr. by right.
Qed.

Lemma text_ind2 (P : text → Prop) :
  P [] → (∀ c, P [c]) → (∀ c d s, P s → P (d :: s) → P (c :: d :: s)) →
  ∀ s, P s.
Proof.
  intros Hnil Hone Hstep s.
  assert (H : P s ∧ ∀ c, P (c :: s)); [|by destruct H].
  induction s as [|d s [IH1 IH2]]; [by split|].
  split; [apply IH2|]. intros c. by apply Hstep.
Qed.

Lemma universal_newlines_elem s c :
  c ∈ universal_newlines s → c = LF ∨ (c ≠ CR ∧ c ∈ s).
Proof.
  revert c. induction s as [|a|a b s IH1 IH2] using text_ind2; intros c H.
  - by apply elem_of_nil in H.
  - cbn in H. destruct (N.eqb_spec a CR).
    + apply list_elem_of_singleton in H. by left.
    + apply list_elem_of_singleton in H as ->. right. split; [done|by left].
  - cbn [universal_newlines] in H. destruct (N.eqb_spec a CR).
    + apply elem_of_cons in H as [->|H]; [by left|].
      destruct (N.eqb_spec b LF).
      * destruct (IH1 _ H) as [?|[? ?]]; [by left|].
        right. split; [done|]. by do 2 right.
      * destruct (IH2 _ H) as [?|[? ?]]; [by left|].
        right. split; [done|]. by right.
    + apply elem_of_cons in H as [->|H].
      * right. split; [done|by left].
      * destruct (IH2 _ H) as [?|[? ?]]; [by left|].
        right. split; [done|]. by right.
Qed.

Lemma universal_newlines_no_cr s : CR ∉ universal_newlines s.
Proof. intros H. by apply universal_newlines_elem in H as [?|[? _]]. Qed.

End TextFacts.

(** ** Secret Provisioner *)

Section SecretFacts.

Implicit Types random : nat → Byte.byte.

Lemma hex_digit_lower_hex n :
  (n < 16)%N → is_lower_hex (hex_digit n) = true.
Proof.
  intros Hn. unfold is_lower_hex, hex_digit.
  destruct (N.ltb_spec n 10).
  - replace (48 <=? 48 + n)%N with true by (symmetry; apply N.leb_le; lia).
    replace (48 + n <=? 57)%N with true by (symmetry; apply N.leb_le; lia).
    done.
  - replace (97 <=? 87 + n)%N with true by (symmetry; apply N.leb_le; lia).
    replace (87 + n <=? 102)%N with true by (symmetry; apply N.leb_le; lia).
    apply orb_true_r.
Qed.

Lemma hexlify_length bytes : length (hexlify bytes) = 2 * length bytes.
Proof.
  unfold hexlify. induction bytes as [|b bytes IH]; [done|].
  cbn [mbind list_bind length app]. rewrite IH. lia.
Qed.

Lemma token_hex_length nbytes random :
  length (token_hex nbytes random) = 2 * nbytes.
Proof.
  unfold token_hex, token_bytes.
  by rewrite hexlify_length, length_fmap, length_seq.
Qed.

Lemma token_hex_lower_hex nbytes random c :
  c ∈ token_hex nbytes random → is_lower_hex c = true.
Proof.
  unfold token_hex, hexlify. intros H.
  apply list_elem_of_bind in H as (b & H & _).
  pose proof (Byte.to_N_bounded b) as Hb.
  apply elem_of_cons in H as [->|H]; [|apply list_elem_of_singleton in H as ->].
  - apply hex_digit_lower_hex.
    apply N.Div0.div_lt_upper_bound. lia.
  - apply hex_digit_lower_hex. apply N.mod_lt. lia.
Qed.

Lemma contains_elem p s c : contains p s = true → c ∈ p → c ∈ s.
Proof.
  induction s as [|a s IH]; intros H Hc.
  - destruct p; [by apply elem_of_nil in Hc|done].
  - rewrite contains_cons in H. apply orb_prop in H as [H|H].
    + apply starts_with_prefix in H as [r ->].
      apply elem_of_app. by left.
    + right. by apply IH.
Qed.

(** The shape of the placeholder that [replace_from_clean] asks for. *)
Lemma placeholder_shape :
  placeholder = 117%N :: txt "ltrasecretke" ++ [121%N].
Proof. reflexivity. Qed.

Lemma token_has_no c nbytes random :
  is_lower_hex c = false → c ∉ token_hex nbytes random.
Proof. intros Hc Hin. apply token_hex_lower_hex in Hin. congruence. Qed.

Lemma provisioned_text_clean random s :
  contains placeholder (replace placeholder (token_hex 32 random) s) = false.
Proof.
  rewrite placeholder_shape. unfold replace.
  apply replace_from_clean; try by apply token_has_no.
  rewrite token_hex_length. cbn. lia.
Qed.

Lemma provisioned_text_no_cr random s :
  CR ∉ replace placeholder (token_hex 32 random) (universal_newlines s).
Proof.
  intros H. apply replace_from_elem in H as [H|H].
  - by apply universal_newlines_no_cr in H.
  - by apply token_has_no in H.
Qed.

(** After any run, [settings.yml] (if the base file exists) no longer
    holds the placeholder. *)
Lemma generate_clean random base settings :
  ∃ content,
    (generate_searxng_secret_key random (Some base) settings).1 = Some content
    ∧ contains placeholder (universal_newlines content) = false.
Proof.
  unfold generate_searxng_secret_key.
  set (on_disk := match settings with None => base | Some s => s end).
  destruct (contains placeholder (universal_newlines on_disk)) eqn:Hp; cbn.
  - eexists. split; [done|].
    rewrite universal_newlines_id by apply provisioned_text_no_cr.
    by apply provisioned_text_clean.
  - by exists on_disk.
Qed.

Lemma generate_skips random base content :
  contains placeholder (universal_newlines content) = false →
  generate_searxng_secret_key random base (Some content) = (Some content, false).
Proof.
  intros H. unfold generate_searxng_secret_key.
  destruct base; [|done]. by rewrite H.
Qed.

Lemma generate_again random1 random2 base settings :
  generate_searxng_secret_key random2 base
    (generate_searxng_secret_key random1 base settings).1
  = ((generate_searxng_secret_key random1 base settings).1, false).
Proof.
  destruct base as [base|]; [|done].
  destruct (generate_clean random1 base settings) as (content & -> & H).
  by apply generate_skips.
Qed.

Lemma provision_runs_settled draws base settings :
  (∀ random, generate_searxng_secret_key random base settings
             = (settings, false)) →
  provision_runs draws base settings = (settings, 0).
Proof.
  intros H. induction draws as [|d draws IH]; [done|].
  cbn [provision_runs]. by rewrite H, IH.
Qed.

(** Where the placeholder is, the replacement puts the new text. *)
Lemma replace_inserts old new s :
  old ≠ [] → contains old s = true → contains new (replace old new s) = true.
Proof.
  intros Hold. unfold replace. induction s as [|c s IH]; intros H.
  - by destruct old.
  - cbn [replace_from]. destruct (starts_with old (c :: s)) eqn:Hhere.
    + destruct (new ++ replace_from old new (length old - 1) s) eqn:Hout;
        [by destruct new|].
      rewrite contains_cons, <- Hout, starts_with_app. done.
    + rewrite contains_cons, Hhere in H. rewrite contains_cons.
      rewrite (IH H). apply orb_true_r.
Qed.

Lemma generate_writes random settings_base settings :
  (generate_searxng_secret_key random settings_base settings).2
  = finds_placeholder settings_base settings.
Proof.
  unfold generate_searxng_secret_key, finds_placeholder.
  destruct settings_base as [base|]; [|done].
  by destruct (contains placeholder _).
Qed.

End SecretFacts.



(** C10: the secret is 64 lowercase hexadecimal digits; the placeholder
    has a letter that is no such digit, so the secret does not contain the
    placeholder; and a file that a run has written a secret to fails the
    placeholder test, so that no later run writes to it again. *)
Theorem secret_never_matches_placeholder (random : nat → Byte.byte)
    (settings_base settings : option text) :
  let secret := token_hex 32 random in
  let run := generate_searxng_secret_key random settings_base settings in
  length secret = 64
  ∧ Forall (λ c, is_lower_hex c = true) secret
  ∧ Exists (λ c, is_lower_hex c = false) placeholder
  ∧ contains placeholder secret = false
  ∧ (run.2 = false
     ∨ (∃ content, run.1 = Some content
                   ∧ contains placeholder (universal_newlines content) = false)
       ∧ ∀ later, provision_runs later settings_base run.1 = (run.1, 0)).
Proof.
  intros secret run. split; [|split; [|split; [|split]]].
  - unfold secret. by rewrite token_hex_length.
  - apply Forall_forall. intros c. apply token_hex_lower_hex.
  - by apply Exists_cons_hd.
  - destruct (contains placeholder secret) eqn:H; [|done].
    apply (contains_elem _ _ 117%N) in H; [|by left].
    by apply token_has_no in H.
  - destruct (run.2) eqn:Hwrote; [right|by left]. split.
    + destruct settings_base as [base|]; [|done].
      apply generate_clean.
    + intros later. apply provision_runs_settled. intros random'.
      apply generate_again.
Qed.

(** ** Environment Merger *)

Section LineFacts.

Implicit Types a b l s : text.
Implicit Types ls : list text.

Lemma file_lines_cons_ne c s : file_lines (c :: s) ≠ [].
Proof. cbn. destruct (c =? LF)%N; [done|]. by destruct (file_lines s). Qed.

Lemma file_lines_app_lf a b :
  file_lines (a ++ LF :: b) = file_lines (a ++ [LF]) ++ file_lines b.
Proof.
  induction a as [|c a IH]; [done|].
  cbn [app file_lines]. rewrite IH.
  destruct (c =? LF)%N; [done|].
  destruct (file_lines (a ++ [LF])) eqn:Hl; [|done].
  destruct a; by apply file_lines_cons_ne in Hl.
Qed.

Lemma file_lines_one_terminated l :
  LF ∉ l → file_lines (l ++ [LF]) = [l ++ [LF]].
Proof.
  induction l as [|c l IH]; intros Hl; [done|].
  cbn [app file_lines]. rewrite IH.
  - destruct (N.eqb_spec c LF) as [->|]; [|done].
    exfalso. apply Hl. by left.
  - intros Hin. apply Hl. by right.
Qed.

Lemma file_lines_one l : LF ∉ l → l ≠ [] → file_lines l = [l].
Proof.
  induction l as [|c l IH]; intros Hl Hne; [done|].
  cbn [file_lines].
  destruct (N.eqb_spec c LF) as [->|]; [exfalso; apply Hl; by left|].
  destruct l as [|d l]; [done|].
  rewrite IH; [done| |done]. intros Hin. apply Hl. by right.
Qed.

Lemma file_lines_terminated l s :
  LF ∉ l → file_lines (l ++ LF :: s) = (l ++ [LF]) :: file_lines s.
Proof.
  intros Hl. by rewrite file_lines_app_lf, file_lines_one_terminated.
Qed.

Lemma concat_file_lines s : concat (file_lines s) = s.
Proof.
  induction s as [|c s IH]; [done|]. cbn [file_lines].
  destruct (c =? LF)%N eqn:Hc.
  - apply N.eqb_eq in Hc as ->. cbn. by rewrite IH.
  - destruct (file_lines s) as [|l ls]; cbn in *; by rewrite <- IH.
Qed.

Lemma file_lines_shape s : lines_shape (file_lines s).
Proof.
  induction s as [|c s IH]; [constructor|]. cbn [file_lines].
  destruct (N.eqb_spec c LF) as [->|Hc].
  - apply (shape_cons []); [apply not_elem_of_nil|done].
  - assert (Hc' : ∀ l, LF ∉ l → LF ∉ c :: l).
    { intros l Hl Hin. apply elem_of_cons in Hin as [?|?]; by eauto. }
    inversion IH as [|l Hl Hne|l ls Hl Hls]; subst.
    + apply shape_last; [|done]. apply Hc', not_elem_of_nil.
    + apply shape_last; [|done]. by apply Hc'.
    + apply (shape_cons (c :: l)); [by apply Hc'|done].
Qed.

Lemma lines_shape_filter (f : text → bool) ls :
  lines_shape ls → lines_shape (List.filter f ls).
Proof.
  induction 1 as [|l Hl Hne|l ls Hl Hls IH]; cbn.
  - constructor.
  - destruct (f l); by constructor.
  - destruct (f (l ++ [LF])); [by constructor|done].
Qed.

Lemma file_lines_concat ls : lines_shape ls → file_lines (concat ls) = ls.
Proof.
  induction 1 as [|l Hl Hne|l ls Hl Hls IH]; [done|..].
  - cbn. rewrite app_nil_r. by apply file_lines_one.
  - cbn [concat]. rewrite <- app_assoc. cbn [app].
    by rewrite file_lines_terminated, IH.
Qed.

(** Terminating the last line keeps every line in its place, up to that
    terminator. *)
Lemma lines_after_newline_at ls i l :
  lines_shape ls → ls !! i = Some l →
  ∃ l', file_lines (concat ls ++ [LF]) !! i = Some l'
        ∧ (l' = l ∨ l' = l ++ [LF]).
Proof.
  intros Hshape. revert i.
  induction Hshape as [|l0 Hl Hne|l0 ls Hl Hls IH]; intros i Hi.
  - done.
  - destruct i as [|i]; [|done]. injection Hi as ->.
    exists (l ++ [LF]). cbn [concat].
    rewrite app_nil_r, file_lines_one_terminated by done.
    by split; [|right].
  - cbn [concat]. rewrite <- !app_assoc. cbn [app].
    rewrite file_lines_terminated by done.
    destruct i as [|i]; [|by apply IH].
    injection Hi as <-. exists (l0 ++ [LF]). by split; [|left].
Qed.

Lemma lines_after_newline ls l :
  lines_shape ls → l ∈ ls →
  l ∈ file_lines (concat ls ++ [LF]) ∨ l ++ [LF] ∈ file_lines (concat ls ++ [LF]).
Proof.
  intros Hshape (i & Hi)%list_elem_of_lookup.
  destruct (lines_after_newline_at ls i l Hshape Hi) as (l' & Hl' & [->| ->]);
    [left|right]; apply list_elem_of_lookup; by exists i.
Qed.

(** Appending text that starts a new line keeps the lines in place. *)
Lemma file_lines_append s r i l :
  file_lines s !! i = Some l →
  ∃ l', file_lines (s ++ LF :: r) !! i = Some l'
        ∧ (l' = l ∨ l' = l ++ [LF]).
Proof.
  intros Hi. rewrite file_lines_app_lf.
  destruct (lines_after_newline_at (file_lines s) i l (file_lines_shape s) Hi)
    as (l' & Hl' & Hor).
  rewrite concat_file_lines in Hl'.
  exists l'. split; [|done]. by apply lookup_app_l_Some.
Qed.

Lemma file_lines_elem s l c : l ∈ file_lines s → c ∈ l → c ∈ s.
Proof.
  intros Hl Hc. rewrite <- (concat_file_lines s).
  apply list_elem_of_In, in_concat. exists l.
  split; by apply list_elem_of_In.
Qed.

(** What reading makes of a text that continues with a line feed. *)
Lemma universal_newlines_app_lf a r :
  ∃ a', universal_newlines (a ++ LF :: r) = a' ++ LF :: universal_newlines r
        ∧ (universal_newlines a = a' ∨ universal_newlines a = a' ++ [LF]).
Proof.
  induction a as [|c|c d s IH1 IH2] using text_ind2.
  - exists []. by split; [|left].
  - cbn [app universal_newlines]. destruct (c =? CR)%N.
    + exists []. by split; [|right].
    + exists [c]. by split; [|left].
  - cbn [app universal_newlines] in *.
    destruct (c =? CR)%N.
    + destruct (d =? LF)%N.
      * destruct IH1 as (a' & -> & Ha). exists (LF :: a').
        split; [done|]. destruct Ha as [->| ->]; [by left|by right].
      * destruct IH2 as (a' & -> & Ha). exists (LF :: a').
        split; [done|]. destruct Ha as [->| ->]; [by left|by right].
    + destruct IH2 as (a' & -> & Ha). exists (c :: a').
      split; [done|]. destruct Ha as [->| ->]; [by left|by right].
Qed.

Lemma rstrip_where_snoc drop l c :
  drop c = true → rstrip_where drop (l ++ [c]) = rstrip_where drop l.
Proof.
  intros Hc. induction l as [|a l IH]; cbn; [by rewrite Hc|].
  by rewrite IH.
Qed.

Lemma strip_snoc_lf l : strip (l ++ [LF]) = strip l.
Proof.
  unfold strip. induction l as [|c l IH]; [done|].
  cbn [app lstrip]. destruct (is_space c); [done|].
  change (c :: l ++ [LF]) with ((c :: l) ++ [LF]).
  by apply rstrip_where_snoc.
Qed.

Lemma contains_equals_snoc_lf l :
  contains [EQUALS] (l ++ [LF]) = contains [EQUALS] l.
Proof. induction l as [|c l IH]; [done|]. cbn in *. by rewrite IH. Qed.

Lemma is_assignment_snoc_lf l : is_assignment (l ++ [LF]) = is_assignment l.
Proof.
  unfold is_assignment. by rewrite contains_equals_snoc_lf, strip_snoc_lf.
Qed.

Lemma key_of_snoc_lf l : key_of (l ++ [LF]) = key_of l.
Proof.
  unfold key_of, assignment, rstrip_newlines.
  by rewrite rstrip_where_snoc.
Qed.

End LineFacts.

Section MergeFacts.

Implicit Types src dest s d k line : text.

Lemma filter_nil_all {A} (f : A → bool) (l : list A) :
  (∀ x, x ∈ l → f x = false) → List.filter f l = [].
Proof.
  induction l as [|a l IH]; intros H; [done|]. cbn.
  rewrite (H a) by by left. apply IH. intros x Hx. apply H. by right.
Qed.

Lemma elem_of_filter_bool {A} (f : A → bool) (l : list A) x :
  x ∈ List.filter f l ↔ x ∈ l ∧ f x = true.
Proof. rewrite !list_elem_of_In. apply filter_In. Qed.

(** The dictionary of the first loop holds exactly the keys of the
    assignment lines. *)
Lemma read_existing_dom (lines : list text) k :
  k ∈ dom (read_existing lines)
  ↔ ∃ line, line ∈ lines ∧ is_assignment line = true ∧ key_of line = k.
Proof.
  unfold read_existing.
  set (step := λ (existing : gmap text text) line, _).
  assert (Hgen : ∀ acc,
    k ∈ dom (foldl step acc lines)
    ↔ k ∈ dom acc
      ∨ ∃ line, line ∈ lines ∧ is_assignment line = true ∧ key_of line = k).
  { induction lines as [|l lines IH]; intros acc; cbn [foldl].
    - split; [by left|]. intros [?|(line & Hin & _)]; [done|].
      by apply elem_of_nil in Hin.
    - rewrite IH. unfold step, key_of.
      destruct (is_assignment l) eqn:Hl.
      + destruct (assignment l) as [k' v] eqn:Hkv.
        rewrite dom_insert_L, elem_of_union, elem_of_singleton.
        split.
        * intros [[->|?]|(line & Hin & ?)].
          -- right. exists l. rewrite Hkv. split; [by left|done].
          -- by left.
          -- right. exists line. split; [by right|done].
        * intros [?|(line & Hin & Hline & Hk)]; [left; by right|].
          apply elem_of_cons in Hin as [->|Hin].
          -- left. left. by rewrite Hkv in Hk.
          -- right. by exists line.
      + split.
        * intros [?|(line & Hin & ?)]; [by left|].
          right. exists line. split; [by right|done].
        * intros [?|(line & Hin & Hline & Hk)]; [by left|].
          apply elem_of_cons in Hin as [->|Hin]; [congruence|].
          right. by exists line. }
  rewrite Hgen, dom_empty_L. split; [|by right].
  intros [H|H]; [|done]. by apply elem_of_empty in H.
Qed.

Lemma existing_has_key d k :
  k ∈ dom (read_existing (file_lines (universal_newlines d))) ↔ has_key d k.
Proof. apply read_existing_dom. Qed.

(** What [additions] holds. *)
Lemma additions_spec s d line :
  line ∈ additions s d
  ↔ line ∈ file_lines (universal_newlines s)
    ∧ is_assignment line = true ∧ ¬ has_key d (key_of line).
Proof.
  unfold additions, collect_additions.
  rewrite elem_of_filter_bool, andb_true_iff, bool_decide_eq_true.
  by rewrite existing_has_key.
Qed.

Lemma additions_no_cr s d : CR ∉ concat (additions s d).
Proof.
  intros H. apply list_elem_of_In, in_concat in H as (line & Hline & H).
  apply list_elem_of_In, additions_spec in Hline as (Hline & _).
  apply list_elem_of_In in H.
  by eapply universal_newlines_no_cr, file_lines_elem.
Qed.

(** The lines of the destination after an append: the old ones with the
    last one terminated, the marker, the appended ones. *)
Lemma merged_lines s d :
  ∃ a', (universal_newlines d = a' ∨ universal_newlines d = a' ++ [LF])
        ∧ file_lines (universal_newlines (d ++ marker ++ concat (additions s d)))
          = file_lines (a' ++ [LF])
            ++ [txt "# Added from root .env" ++ [LF]] ++ additions s d.
Proof.
  unfold marker. rewrite <- !app_assoc. cbn [app].
  set (m := txt "# Added from root .env").
  destruct (universal_newlines_app_lf d (m ++ LF :: concat (additions s d)))
    as (a' & -> & Ha).
  exists a'. split; [done|].
  rewrite (universal_newlines_id (m ++ _)).
  - rewrite (file_lines_app_lf a'), (file_lines_terminated m).
    + rewrite file_lines_concat; [done|].
      apply lines_shape_filter, file_lines_shape.
    + by vm_compute; intros ?%list_elem_of_In; cbn in *; intuition discriminate.
  - intros H. apply elem_of_app in H as [H|H].
    + by vm_compute in H; apply list_elem_of_In in H; cbn in *; intuition discriminate.
    + apply elem_of_cons in H as [?|H]; [done|].
      by apply additions_no_cr in H.
Qed.

Lemma merged_keeps_keys s d k :
  has_key d k → has_key (d ++ marker ++ concat (additions s d)) k.
Proof.
  intros (line & Hline & Hass & Hk).
  destruct (merged_lines s d) as (a' & Ha & Hlines).
  unfold has_key. rewrite Hlines. clear Hlines.
  destruct Ha as [Ha|Ha]; rewrite Ha in Hline.
  - destruct (lines_after_newline (file_lines a') line) as [H|H];
      [apply file_lines_shape|done|..];
      rewrite concat_file_lines in H.
    + exists line. split; [|done]. apply elem_of_app. by left.
    + exists (line ++ [LF]).
      rewrite is_assignment_snoc_lf, key_of_snoc_lf.
      split; [|done]. apply elem_of_app. by left.
  - exists line. split; [|done]. apply elem_of_app. by left.
Qed.

Lemma merged_has_added_keys s d line :
  line ∈ additions s d →
  has_key (d ++ marker ++ concat (additions s d)) (key_of line).
Proof.
  intros Hin. destruct (merged_lines s d) as (a' & _ & Hlines).
  exists line. rewrite Hlines.
  apply additions_spec in Hin as Hspec. destruct Hspec as (_ & Hass & _).
  split; [|done]. apply elem_of_app. right. by right.
Qed.

Lemma additions_after_merge s d :
  additions s (d ++ marker ++ concat (additions s d)) = [].
Proof.
  unfold additions at 1, collect_additions. apply filter_nil_all.
  intros line Hline. apply andb_false_iff.
  destruct (is_assignment line) eqn:Hass; [right|by left].
  apply bool_decide_eq_false. intros Hnot. apply Hnot.
  apply existing_has_key.
  destruct (decide (key_of line
                    ∈ dom (read_existing (file_lines (universal_newlines d)))))
    as [Hk|Hk]; rewrite existing_has_key in Hk.
  - by apply merged_keeps_keys.
  - apply merged_has_added_keys. by apply additions_spec.
Qed.

Lemma additions_self s : additions s s = [].
Proof.
  unfold additions, collect_additions. apply filter_nil_all.
  intros line Hline. apply andb_false_iff.
  destruct (is_assignment line) eqn:Hass; [right|by left].
  apply bool_decide_eq_false. intros Hnot. apply Hnot.
  apply read_existing_dom. by exists line.
Qed.

End MergeFacts.

(** C3: when the destination exists, the merge keeps its text as a
    prefix of the new text, so that every line stays where it was (the
    last one at most gains its line end); what is appended, if anything,
    is the marker followed by exactly those assignment lines of the source
    whose key the destination does not define, whatever value the source
    gives to the keys that it does define. *)
Theorem merge_appends_only (src : option text) (d : text) :
  ∃ adds : list text,
    prepare_supabase_env src (Some d)
    = (Some (d ++ match adds with [] => [] | _ => marker ++ concat adds end),
       match adds with [] => false | _ => true end)
    ∧ (∀ line, line ∈ adds
         ↔ ∃ s, src = Some s
                ∧ line ∈ file_lines (universal_newlines s)
                ∧ is_assignment line = true
                ∧ ¬ has_key d (key_of line))
    ∧ (∀ d' i line,
         (prepare_supabase_env src (Some d)).1 = Some d' →
         file_lines d !! i = Some line →
         ∃ line', file_lines d' !! i = Some line'
                  ∧ (line' = line ∨ line' = line ++ [LF])).
Proof.
  destruct src as [s|].
  - exists (additions s d). split; [|split].
    + cbn. by destruct (additions s d); [rewrite app_nil_r|].
    + intros line. rewrite additions_spec. split.
      * intros H. by exists s.
      * by intros (s' & [= <-] & H).
    + intros d' i line Hd' Hi. cbn in Hd'.
      destruct (additions s d) as [|l adds].
      * injection Hd' as <-. exists line. by split; [|left].
      * injection Hd' as <-. by apply file_lines_append.
  - exists []. split; [|split].
    + cbn. by rewrite app_nil_r.
    + intros line. split; [by intros ?%elem_of_nil|by intros (? & ? & _)].
    + intros d' i line [= <-] Hi. exists line. by split; [|left].
Qed.

(** C5: merging the same source once more into the merged destination
    finds no additions and writes nothing. *)
Theorem merge_idempotent (src dest : option text) :
  let merged := (prepare_supabase_env src dest).1 in
  prepare_supabase_env src merged = (merged, false)
  ∧ (∀ s d, src = Some s → merged = Some d → additions s d = []).
Proof.
  assert (Hadd : ∀ s d,
    src = Some s → (prepare_supabase_env src dest).1 = Some d →
    additions s d = []).
  { intros s d -> Hd. unfold prepare_supabase_env in Hd.
    destruct dest as [d0|].
    - destruct (additions s d0) as [|l adds] eqn:Hadds; cbn [fst] in Hd.
      + by apply (inj Some) in Hd as <-.
      + apply (inj Some) in Hd as <-.
        rewrite <- Hadds. apply additions_after_merge.
    - apply (inj Some) in Hd as <-. apply additions_self. }
  split; [|exact Hadd].
  destruct src as [s|]; [|done].
  destruct (prepare_supabase_env (Some s) dest) as [[d|] wrote] eqn:Hrun.
  - cbn [fst]. cbn [prepare_supabase_env]. by rewrite (Hadd s d).
  - destruct dest as [d0|]; cbn in Hrun; [|done].
    by destruct (additions s d0).
Qed.

(** ** Capability Toggle Manager *)

Section RegexFacts.

Implicit Types p q : list item.
Implicit Types s t r : text.

Lemma match_spaces_nil q : match_items (Spaces :: q) [] = match_items q [].
Proof. done. Qed.

Lemma match_spaces_cons q x s :
  match_items (Spaces :: q) (x :: s) =
  if is_space x
  then match match_items (Spaces :: q) s with
       | Some n => Some (S n)
       | None => match_items q (x :: s)
       end
  else match_items q (x :: s).
Proof. done. Qed.

Lemma match_lit_cons c q x s :
  match_items (Lit c :: q) (x :: s) =
  if (x =? c)%N then S <$> match_items q s else None.
Proof. done. Qed.

(** A pattern whose first literal is not [h] does not match at [h]. *)
Lemma match_blocked h q s :
  is_space h = false → q ≠ [] → never_starts_with h q = true →
  match_items q (h :: s) = None.
Proof.
  intros Hh. induction q as [|[c|] q IH]; intros Hne Hq; [done|..].
  - cbn in Hq. apply andb_prop in Hq as [Hc _].
    rewrite match_lit_cons. rewrite N.eqb_sym. by destruct (c =? h)%N.
  - rewrite match_spaces_cons, Hh. cbn in Hq.
    destruct q; [done|]. by apply IH.
Qed.

Lemma match_needs_input h q :
  q ≠ [] → never_starts_with h q = true → match_items q [] = None.
Proof.
  induction q as [|[c|] q IH]; intros Hne Hq; [done..|].
  rewrite match_spaces_nil. cbn in Hq. destruct q; [done|]. by apply IH.
Qed.

Lemma match_nonempty h q s :
  q ≠ [] → never_starts_with h q = true → match_items q s ≠ Some 0.
Proof.
  intros Hne Hq. revert s.
  induction q as [|[c|] q IH]; intros s; [done|..].
  - destruct s as [|x s]; [done|]. rewrite match_lit_cons.
    destruct (x =? c)%N; [|done]. by destruct (match_items q s).
  - cbn in Hq. destruct q as [|i q]; [done|].
    induction s as [|x s IHs].
    + rewrite match_spaces_nil. by apply IH.
    + rewrite match_spaces_cons. destruct (is_space x); [|by apply IH].
      destruct (match_items (Spaces :: i :: q) s); [done|by apply IH].
Qed.

Section Substitution.

(** A pattern that is anchored to line starts, and a replacement that
    stays on one line and begins with a character at which no part of
    the pattern can resume. *)
Variables (re : regex) (h : N) (tail : text).
Hypothesis anchored : at_line_start re = true.
Hypothesis pattern_ne : items re ≠ [].
Hypothesis h_not_space : is_space h = false.
Hypothesis h_blocks : never_starts_with h (items re) = true.
Hypothesis one_line : LF ∉ h :: tail.

Local Abbreviation repl := (h :: tail).

Lemma never_starts_with_tail i q :
  never_starts_with h (i :: q) = true → never_starts_with h q = true.
Proof. destruct i; cbn; intros H; by apply andb_prop in H as [_ ?]. Qed.

(** If a part of the pattern matches at the head of the rewritten text,
    it matches at the head of the original text. *)
Lemma match_survives q :
  never_starts_with h q = true →
  ∀ s bol, is_Some (match_items q (sub_from re repl 0 bol s)) →
           is_Some (match_items q s).
Proof.
  induction q as [|[c|] q IH]; intros Hq.
  - intros s bol _. by eexists.
  - intros [|x s] bol H; [done|]. cbn [sub_from] in H.
    destruct (match_at re bol (x :: s)) as [[|k]|].
    + rewrite match_lit_cons in H |- *. destruct (x =? c)%N; [|done].
      apply fmap_is_Some in H. apply fmap_is_Some.
      eapply IH; [by eapply never_starts_with_tail|done].
    + cbn [app] in H. rewrite (match_blocked h) in H by done. by destruct H.
    + rewrite match_lit_cons in H |- *. destruct (x =? c)%N; [|done].
      apply fmap_is_Some in H. apply fmap_is_Some.
      eapply IH; [by eapply never_starts_with_tail|done].
  - assert (Hq' : never_starts_with h q = true)
      by by eapply never_starts_with_tail.
    assert (Hstep : ∀ x s bol,
      (∀ bol', is_Some (match_items (Spaces :: q) (sub_from re repl 0 bol' s)) →
               is_Some (match_items (Spaces :: q) s)) →
      sub_from re repl 0 bol (x :: s) = x :: sub_from re repl 0 (x =? LF)%N s →
      is_Some (match_items (Spaces :: q) (sub_from re repl 0 bol (x :: s))) →
      is_Some (match_items (Spaces :: q) (x :: s))).
    { intros x s bol IHs Heq H. rewrite match_spaces_cons.
      assert (Hq0 : is_Some (match_items q (sub_from re repl 0 bol (x :: s))) →
                    is_Some (match_items q (x :: s))) by by apply IH.
      rewrite Heq in H, Hq0. rewrite match_spaces_cons in H.
      destruct (is_space x); [|by apply Hq0].
      destruct (match_items (Spaces :: q) (sub_from re repl 0 (x =? LF)%N s))
        eqn:Hrest.
      - destruct (IHs (x =? LF)%N) as [n' ->]; [by rewrite Hrest|by eexists].
      - destruct (match_items (Spaces :: q) s); [by eexists|by apply Hq0]. }
    induction s as [|x s IHs]; intros bol H; [done|].
    pose proof H as H0. cbn [sub_from] in H0.
    destruct (match_at re bol (x :: s)) as [[|k]|] eqn:Hm.
    + apply (Hstep x s bol); [done| |done]. cbn [sub_from]. by rewrite Hm.
    + cbn [app] in H0. rewrite (match_blocked h) in H0 by done.
      by destruct H0.
    + apply (Hstep x s bol); [done| |done]. cbn [sub_from]. by rewrite Hm.
Qed.

Lemma search_past_line r t :
  LF ∉ r → search_from re false t = false →
  search_from re false (r ++ t) = false.
Proof.
  intros Hr Ht. induction r as [|c r IH]; [done|].
  cbn [app search_from]. unfold match_at. rewrite anchored. cbn.
  destruct (N.eqb_spec c LF) as [->|_]; [exfalso; apply Hr; by left|].
  apply IH. intros Hin. apply Hr. by right.
Qed.

Lemma search_past_replacement bol t :
  search_from re false t = false → search_from re bol (repl ++ t) = false.
Proof.
  intros Ht. cbn [app search_from]. unfold match_at.
  rewrite (match_blocked h) by done.
  destruct (N.eqb_spec h LF) as [Heq|_];
    [exfalso; apply one_line; rewrite Heq; by left|].
  rewrite search_past_line; [|intros Hin; apply one_line; by right|done].
  by destruct (at_line_start re && negb bol).
Qed.

(** The rewritten text has no match left. *)
Lemma sub_from_clean s :
  ∀ skip bol bol',
    (bol' = true → bol = true ∧ skip = 0) →
    search_from re bol' (sub_from re repl skip bol s) = false.
Proof.
  induction s as [|c s IH]; intros skip bol bol' Hbol.
  - cbn. unfold match_at. rewrite (match_needs_input h) by done.
    by destruct (at_line_start re && negb bol').
  - cbn [sub_from]. destruct skip as [|k].
    + assert (Hkeep :
        match_at re bol (c :: s) = None ∨ match_at re bol (c :: s) = Some 0 →
        search_from re bol' (c :: sub_from re repl 0 (c =? LF)%N s) = false).
      { intros Hm. cbn [search_from].
        rewrite (IH 0 (c =? LF)%N (c =? LF)%N) by done.
        rewrite orb_false_r. apply bool_decide_eq_false. intros Hsome.
        unfold match_at in Hsome, Hm. rewrite anchored in Hsome, Hm.
        destruct bol'; [|by destruct Hsome].
        destruct (Hbol eq_refl) as [-> _]. cbn in Hsome, Hm.
        assert (H0 : is_Some (match_items (items re) (c :: s))).
        { apply (match_survives _ h_blocks (c :: s) true).
          cbn [sub_from]. unfold match_at. rewrite anchored. cbn.
          by destruct Hm as [-> | ->]. }
        destruct Hm as [Hm|Hm]; rewrite Hm in H0; [by destruct H0|].
        by apply (match_nonempty h) in Hm. }
      destruct (match_at re bol (c :: s)) as [[|k]|] eqn:Hm.
      * apply Hkeep. by right.
      * apply search_past_replacement, IH. by intros [=].
      * apply Hkeep. by left.
    + destruct bol'; [by destruct (Hbol eq_refl)|].
      apply IH. by intros [=].
Qed.

End Substitution.

Lemma sub_from_no_match re repl s bol :
  search_from re bol s = false → sub_from re repl 0 bol s = s.
Proof.
  revert bol. induction s as [|c s IH]; intros bol H; [done|].
  cbn [search_from] in H. apply orb_false_elim in H as [Hhere Hrest].
  cbn [sub_from]. rewrite IH by done.
  destruct (match_at re bol (c :: s)) as [[|k]|]; [done| |done].
  apply bool_decide_eq_false in Hhere. destruct Hhere. by eexists.
Qed.

End RegexFacts.

Section ToggleFacts.

Lemma disabled_text_shape :
  disabled_text = HASH :: txt " cap_drop: - ALL  # temporarily disabled first run".
Proof. reflexivity. Qed.

Lemma disabling_leaves_no_active content :
  search active_pattern (sub active_pattern disabled_text content) = false.
Proof.
  unfold search, sub. rewrite disabled_text_shape.
  apply sub_from_clean; try done.
  rewrite <- disabled_text_shape. vm_compute.
  intros Hin%list_elem_of_In. cbn in Hin. intuition discriminate.
Qed.

Lemma toggle_unmatched (first_run : bool) (content : text) :
  search (if first_run then active_pattern else commented_pattern) content
    = false →
  toggle first_run content = (content, false).
Proof. unfold toggle. by destruct first_run; cbn; intros ->. Qed.

End ToggleFacts.

(** C2: on the declaration as it stands in a composition document
    (indented, the list item on the next line) the first-run transform
    followed by the not-first-run transform does not give the document
    back, even with the marker comment taken out: the indentation and the
    line break of the declaration are gone. *)
Theorem toggle_round_trip_loses_layout :
  let disabled := (toggle true searxng_service).1 in
  let restored := (toggle false disabled).1 in
  search active_pattern searxng_service = true
  ∧ disabled = unlines ["services:";
                        "  searxng:";
                        "# cap_drop: - ALL  # temporarily disabled first run";
                        "    cap_add:";
                        "      - CHOWN"]
  ∧ restored = unlines ["services:";
                        "  searxng:";
                        "cap_drop: - ALL  # temporarily disabled first run";
                        "    cap_add:";
                        "      - CHOWN"]
  ∧ adjust_cap_drop_first_run false
      (adjust_cap_drop_first_run true (Some searxng_service)) = Some restored
  ∧ without_marker restored = unlines ["services:";
                                       "  searxng:";
                                       "cap_drop: - ALL";
                                       "    cap_add:";
                                       "      - CHOWN"]
  ∧ without_marker restored ≠ searxng_service.
Proof. vm_compute. by repeat split. Qed.

(** C6 (as stated): a document whose declaration is active, below a bare
    comment sign, matches both patterns, and the not-first-run transform
    rewrites it although it is already active. *)
Lemma active_document_matches_both :
  let content := txt "#" ++ [LF] ++ txt "cap_drop: - ALL" in
  search active_pattern content = true
  ∧ search commented_pattern content = true
  ∧ toggle false content = (txt "cap_drop: - ALL", true)
  ∧ toggle false content ≠ (content, false).
Proof. vm_compute. by repeat split. Qed.

(** C6 (amended): on the two forms that the toggle itself writes, exactly
    one pattern matches; on any document, a transform whose pattern does
    not match changes nothing and writes nothing; and whatever the
    first-run transform returns no longer matches the active pattern, so
    that a second first-run transform finds nothing to replace and is a
    no-op. *)
Theorem toggle_states (content : text) :
  let disabled := (toggle true content).1 in
  (search active_pattern enabled_text = true
   ∧ search commented_pattern enabled_text = false
   ∧ search active_pattern disabled_text = false
   ∧ search commented_pattern disabled_text = true)
  ∧ (search active_pattern content = true
     ∨ toggle true content = (content, false))
  ∧ (search commented_pattern content = true
     ∨ toggle false content = (content, false))
  ∧ search active_pattern disabled = false
  ∧ sub active_pattern disabled_text disabled = disabled
  ∧ toggle true disabled = (disabled, false).
Proof.
  intros disabled.
  assert (Hclean : search active_pattern disabled = false).
  { unfold disabled, toggle. cbn [andb negb].
    destruct (search active_pattern content) eqn:Hs; [|done].
    apply disabling_leaves_no_active. }
  split; [by vm_compute|]. split; [|split; [|split; [|split]]].
  - destruct (search active_pattern content) eqn:Hs; [by left|right].
    by apply (toggle_unmatched true).
  - destruct (search commented_pattern content) eqn:Hs; [by left|right].
    by apply (toggle_unmatched false).
  - done.
  - by apply sub_from_no_match.
  - by apply (toggle_unmatched true).
Qed.

(** ** Readiness Prober *)

Section ProbeFacts.

Variables (connect : nat → attempt) (timeout start : Z).

Local Abbreviation T := (1000 * timeout)%Z.

(** One round of the loop is enough for two seconds of the time that is
    left; the loop never runs out of rounds, and it ends either at once
    or less than a connection timeout and a poll interval after the
    limit. *)
Lemma wait_loop_bound fuel c :
  (∀ i, Z.of_N (took (connect i)) ≤ CONNECT_TIMEOUT_MS)%Z →
  (T - (now c - start) + POLL_MS ≤ POLL_MS * Z.of_nat fuel)%Z →
  fuel ≠ 0 →
  ∃ r c', wait_loop fuel connect timeout start c = (r, c')
          ∧ r ≠ OutOfFuel
          ∧ (now c' = now c
             ∨ (now c' - start < T + CONNECT_TIMEOUT_MS + POLL_MS)%Z).
Proof.
  intros Htook. revert c.
  induction fuel as [|fuel IH]; intros c Hfuel Hne; [done|].
  cbn [wait_loop]. unfold POLL_MS, CONNECT_TIMEOUT_MS in *.
  destruct (Z.ltb_spec (now c - start) T) as [Hlt|Hge].
  - pose proof (Htook (attempts c)) as Hc.
    destruct (result (connect (attempts c))).
    + eexists _, _. split; [done|]. split; [done|]. right. cbn. lia.
    + set (c2 := advance 2000 _).
      destruct (IH c2) as (r & c' & Hrun & Hr & Hbound).
      * unfold c2. cbn. lia.
      * intros ->. cbn in Hfuel. lia.
      * exists r, c'. split; [done|]. split; [done|]. right.
        destruct Hbound as [->|?]; [|done]. unfold c2. cbn. lia.
    + eexists _, _. split; [done|]. split; [done|]. right. cbn. lia.
  - eexists _, _. split; [done|]. split; [done|]. by left.
Qed.

Lemma wait_loop_total fuel c :
  (T - (now c - start) + POLL_MS ≤ POLL_MS * Z.of_nat fuel)%Z →
  fuel ≠ 0 →
  (wait_loop fuel connect timeout start c).1 ≠ OutOfFuel.
Proof.
  revert c. induction fuel as [|fuel IH]; intros c Hfuel Hne; [done|].
  cbn [wait_loop]. unfold POLL_MS in *.
  destruct (Z.ltb_spec (now c - start) T) as [Hlt|Hge]; [|done].
  destruct (result (connect (attempts c))); [done| |done].
  apply IH; [cbn; lia|]. intros ->. cbn in Hfuel. lia.
Qed.

(** Without exceptions other than [OSError] the loop returns; [False]
    means that the time is up and every attempt failed, [True] that the
    last attempt connected. *)
Lemma wait_loop_returns fuel c :
  (∀ i, result (connect i) ≠ RaisedOther) →
  (T - (now c - start) + POLL_MS ≤ POLL_MS * Z.of_nat fuel)%Z →
  fuel ≠ 0 →
  ∃ ready c', wait_loop fuel connect timeout start c = (Returned ready, c')
    ∧ attempts c ≤ attempts c'
    ∧ if ready
      then ∃ i, attempts c' = S i ∧ result (connect i) = Connected
      else (T ≤ now c' - start)%Z
           ∧ ∀ i, attempts c ≤ i < attempts c' →
                  result (connect i) = RaisedOSError.
Proof.
  intros Hres. revert c.
  induction fuel as [|fuel IH]; intros c Hfuel Hne; [done|].
  cbn [wait_loop]. unfold POLL_MS in *.
  destruct (Z.ltb_spec (now c - start) T) as [Hlt|Hge].
  - pose proof (Hres (attempts c)) as Hc.
    destruct (result (connect (attempts c))) eqn:Hr; [| |done].
    + exists true. eexists. split; [done|]. cbn. split; [lia|].
      by exists (attempts c).
    + set (c2 := advance 2000 _).
      destruct (IH c2) as (ready & c' & Hrun & Hle & Hready).
      * unfold c2. cbn. lia.
      * intros ->. cbn in Hfuel. lia.
      * exists ready, c'. split; [done|]. unfold c2 in Hle, Hready.
        cbn in Hle, Hready. split; [lia|].
        destruct ready; [done|]. destruct Hready as [Hup Hall].
        split; [done|]. intros i Hi.
        destruct (decide (i = attempts c)) as [->|]; [done|].
        apply Hall. lia.
  - exists false, c. split; [done|]. split; [done|]. split; [lia|].
    intros i Hi. lia.
Qed.

End ProbeFacts.

Lemma rounds_suffice timeout c :
  (1000 * timeout - (now c - now c) + POLL_MS
   ≤ POLL_MS * Z.of_nat (rounds timeout))%Z.
Proof.
  unfold rounds, POLL_MS. rewrite !Nat2Z.inj_succ.
  destruct (Z.le_gt_cases 0 (1000 * timeout)) as [Hpos|Hneg].
  - rewrite Z2Nat.id by (apply Z.div_pos; lia).
    pose proof (Z.mul_div_le (1000 * timeout) 2000 ltac:(lia)).
    pose proof (Z.mod_pos_bound (1000 * timeout) 2000 ltac:(lia)).
    pose proof (Z.div_mod (1000 * timeout) 2000 ltac:(lia)).
    lia.
  - lia.
Qed.

Lemma wait_for_postgres_total connect timeout c :
  (wait_for_postgres connect timeout c).1 ≠ OutOfFuel.
Proof.
  apply wait_loop_total; [apply rounds_suffice|done].
Qed.

(** C7 (as stated): with the default timeout and a target that refuses
    each connection after 1.99 s, the probe ends after 123.69 s, later
    than the timeout plus one poll interval. *)
Lemma probe_overruns_one_poll_interval :
  let refusing := λ _ : nat, {| result := RaisedOSError; took := 1990 |} in
  let c0 := {| now := 0; attempts := 0 |} in
  (∀ i, Z.of_N (took (refusing i)) ≤ CONNECT_TIMEOUT_MS)%Z
  ∧ wait_for_postgres refusing 120 c0
    = (Returned false, {| now := 123690; attempts := 31 |})
  ∧ ¬ (now (wait_for_postgres refusing 120 c0).2 - now c0
       ≤ 1000 * 120 + POLL_MS)%Z.
Proof. split; [|split]; [by intros _|by vm_compute|by vm_compute]. Qed.

(** C7 (amended): if no connection attempt outlasts its two-second
    timeout, the probe ends, whatever the target does, less than the
    timeout plus one connection timeout plus one poll interval after it
    began. *)
Theorem probe_terminates_within (connect : nat → attempt) (timeout : Z)
    (c : clock) :
  (0 ≤ timeout)%Z →
  (∀ i, Z.of_N (took (connect i)) ≤ CONNECT_TIMEOUT_MS)%Z →
  ∃ r c', wait_for_postgres connect timeout c = (r, c')
          ∧ r ≠ OutOfFuel
          ∧ (now c' - now c
             < 1000 * timeout + CONNECT_TIMEOUT_MS + POLL_MS)%Z.
Proof.
  intros Hpos Htook. unfold wait_for_postgres.
  destruct (wait_loop_bound connect timeout (now c) (rounds timeout) c)
    as (r & c' & Hrun & Hr & Hbound);
    [done|apply rounds_suffice|done|].
  exists r, c'. split; [done|]. split; [done|].
  unfold CONNECT_TIMEOUT_MS, POLL_MS in *. lia.
Qed.

Lemma probe_terminates_within_witness :
  let refusing := λ _ : nat, {| result := RaisedOSError; took := 1990 |} in
  let c0 := {| now := 0; attempts := 0 |} in
  (0 ≤ 120)%Z
  ∧ (∀ i, Z.of_N (took (refusing i)) ≤ CONNECT_TIMEOUT_MS)%Z
  ∧ ∃ r c', wait_for_postgres refusing 120 c0 = (r, c')
            ∧ r ≠ OutOfFuel
            ∧ (now c' - now c0 < 1000 * 120 + CONNECT_TIMEOUT_MS + POLL_MS)%Z.
Proof.
  split; [done|]. split; [by intros _|].
  apply (probe_terminates_within
           (λ _ : nat, {| result := RaisedOSError; took := 1990 |}) 120
           {| now := 0; attempts := 0 |}); [done|by intros _].
Defined.


(** ** Orchestration Controller *)

Import Controller.

Section ControllerFacts.

Context {A B : Type}.
Implicit Types (w : World) (args : Args) (st : State) (ok : event → Prop).

Lemma bind_unfold (m : M A) (k : A → M B) st :
  (m ≫= k) st =
  match m st with
  | (Returned a, st') => k a st'
  | (Raised, st') => (Raised, st')
  | (OutOfFuel, st') => (OutOfFuel, st')
  end.
Proof. done. Qed.

Lemma emits_only_bind_ret ok (m : M A) (k : A → M B) :
  emits_only ok m →
  (∀ a, (∃ st, (m st).1 = Returned a) → emits_only ok (k a)) →
  emits_only ok (m ≫= k).
Proof.
  intros Hm Hk st. rewrite bind_unfold.
  destruct (Hm st) as (added1 & Hlog1 & Hok1 & Hfuel1).
  destruct (m st) as [[a| |] st1] eqn:Hrun; cbn in *;
    [|by exists added1|done].
  assert (Hret : ∃ st0, (m st0).1 = Returned a)
    by (exists st; by rewrite Hrun).
  destruct (Hk a Hret st1) as (added2 & Hlog2 & Hok2 & Hfuel2).
  exists (added1 ++ added2). rewrite Hlog2, Hlog1, <- app_assoc.
  split; [done|]. split; [by apply Forall_app|done].
Qed.

Lemma emits_only_bind ok (m : M A) (k : A → M B) :
  emits_only ok m → (∀ a, emits_only ok (k a)) → emits_only ok (m ≫= k).
Proof.
  intros Hm Hk. apply emits_only_bind_ret; [done|]. intros a _. apply Hk.
Qed.

Lemma emits_only_weaken ok ok' (m : M A) :
  (∀ e, ok e → ok' e) → emits_only ok m → emits_only ok' m.
Proof.
  intros Himpl Hm st. destruct (Hm st) as (added & Hlog & Hok & Hfuel).
  exists added. split; [done|]. split; [by eapply Forall_impl|done].
Qed.

Lemma emits_nothing ok (m : M A) :
  (∀ st, trace (m st).2 = trace st ∧ (m st).1 ≠ OutOfFuel) →
  emits_only ok m.
Proof.
  intros H st. destruct (H st) as [Hlog Hfuel].
  exists []. by rewrite Hlog, app_nil_r.
Qed.

Lemma starts_local_bind w args (m : M A) (k : A → M B) :
  only_commands m → (∀ a, starts_local_after_probe w args (k a)) →
  starts_local_after_probe w args (m ≫= k).
Proof.
  intros Hm Hk st. rewrite bind_unfold.
  destruct (Hm st) as (added1 & Hlog1 & Hran1 & Hout1).
  destruct (m st) as [[a| |] st1]; cbn in *;
    [|exists added1; by auto|done].
  destruct (Hk a st1) as (added2 & Hlog2 & Hout2 & Hshape).
  exists (added1 ++ added2). rewrite Hlog2, Hlog1, <- app_assoc.
  split; [done|]. split; [done|].
  destruct Hshape as [Hran2|(before & ready & Hbefore & ->)].
  - left. by apply Forall_app.
  - right. exists (added1 ++ before), ready.
    split; [by apply Forall_app|]. by rewrite <- app_assoc.
Qed.

End ControllerFacts.

Section ControllerSteps.

Implicit Types (w : World) (args : Args) (st : State) (ok : event → Prop).

Lemma emits_only_ret {A} ok (a : A) : emits_only ok (mret a : M A).
Proof. by apply emits_nothing. Qed.

Lemma emits_only_exit {A} ok : emits_only ok (exit : M A).
Proof. by apply emits_nothing. Qed.

Lemma emits_only_get ok : emits_only ok get_files.
Proof. by apply emits_nothing. Qed.

Lemma emits_only_read ok w op : emits_only ok (read_file w op).
Proof.
  apply emits_nothing. intros st. unfold read_file.
  by destruct (io_raises w op).
Qed.

Lemma emits_only_write ok w op put content :
  emits_only ok (write_file w op put content).
Proof.
  apply emits_nothing. intros st. unfold write_file.
  by destruct (io_raises w op).
Qed.

Lemma emits_only_when ok b m : emits_only ok m → emits_only ok (when b m).
Proof. destruct b; [done|]. intros _. apply emits_only_ret. Qed.

Lemma emits_only_subprocess ok w cmd :
  ok (Ran cmd) → emits_only ok (subprocess_run w cmd).
Proof.
  intros Hok st. exists [Ran cmd]. unfold subprocess_run.
  destruct (process w _ cmd); cbn;
    (split; [done|]; split; [by apply Forall_singleton|done]).
Qed.

Lemma emits_only_run ok w cmd allow_fail :
  ok (Ran (argv cmd)) → emits_only ok (run_command w cmd allow_fail).
Proof.
  intros Hok st. exists [Ran (argv cmd)]. unfold run_command.
  destruct (process w _ (argv cmd)) as [returncode stdout| |];
    [destruct (returncode =? 0)%Z|..]; destruct allow_fail; cbn;
    (split; [done|]; split; [by apply Forall_singleton|done]).
Qed.

Lemma emits_only_ensure ok w :
  ok (Ran docker_compose_version) → emits_only ok (ensure_binaries w).
Proof.
  intros Hok. unfold ensure_binaries.
  destruct (List.filter _ _); [|apply emits_only_exit].
  apply emits_only_bind; [by apply emits_only_subprocess|intros res].
  destruct (negb _); [apply emits_only_exit|apply emits_only_ret].
Qed.

Lemma emits_only_try ok w branches :
  (∀ branch, branch ∈ branches → ok (Ran (git_ls_remote branch))) →
  emits_only ok (try_branches w branches).
Proof.
  induction branches as [|branch rest IH]; intros Hok; cbn [try_branches];
    [apply emits_only_exit|].
  apply emits_only_bind; [|intros r].
  - apply emits_only_subprocess, Hok. by left.
  - destruct (contains _ _); [apply emits_only_ret|].
    apply IH. intros b Hb. apply Hok. by right.
Qed.

Lemma try_branches_returns w branches st branch :
  (try_branches w branches st).1 = Returned branch → branch ∈ branches.
Proof.
  revert st. induction branches as [|b rest IH]; intros st; [done|].
  cbn [try_branches]. rewrite bind_unfold. unfold subprocess_run.
  destruct (process w _ _) as [returncode stdout| |]; [|done..].
  cbn [snd]. destruct (contains _ _).
  - intros [= <-]. by left.
  - intros H. right. by eapply IH.
Qed.

Lemma emits_only_clone ok w :
  (∀ cmd, cmd ∈ git_commands → ok (Ran cmd)) →
  emits_only ok (clone_or_update_supabase w).
Proof.
  intros Hok.
  assert (Hin : ∀ n cmd, git_commands !! n = Some cmd → ok (Ran cmd)).
  { intros n cmd Hn. apply Hok, list_elem_of_lookup. by exists n. }
  unfold clone_or_update_supabase. destruct (negb (repo_exists w)).
  - apply emits_only_bind; [by apply emits_only_run, (Hin 0)|intros _].
    apply emits_only_bind_ret; [|intros branch [st Hbranch]].
    { apply emits_only_try. intros branch Hbranch.
      apply elem_of_cons in Hbranch as [->|Hbranch]; [by apply (Hin 1)|].
      apply list_elem_of_singleton in Hbranch as ->. by apply (Hin 2). }
    apply emits_only_bind; [by apply emits_only_run, (Hin 3)|intros _].
    apply emits_only_bind; [by apply emits_only_run, (Hin 4)|intros _].
    apply emits_only_bind; [|intros _; apply emits_only_ret].
    apply emits_only_run.
    apply try_branches_returns, elem_of_cons in Hbranch as [->|Hbranch];
      [by apply (Hin 5)|].
    apply list_elem_of_singleton in Hbranch as ->. by apply (Hin 6).
  - apply emits_only_bind; [by apply emits_only_run, (Hin 7)|intros _].
    apply emits_only_bind; [by apply emits_only_run, (Hin 8)|intros _].
    apply emits_only_ret.
Qed.

Lemma emits_only_prepare ok w : emits_only ok (prepare_env w).
Proof.
  unfold prepare_env.
  apply emits_only_bind; [apply emits_only_get|intros fs].
  destruct (root_env fs) as [src|]; [|apply emits_only_ret].
  destruct (supabase_env fs) as [dest|]; [|apply emits_only_write].
  apply emits_only_bind; [apply emits_only_read|intros _].
  apply emits_only_bind; [apply emits_only_read|intros _].
  destruct (additions src dest); [apply emits_only_ret|apply emits_only_write].
Qed.

Lemma emits_only_provision ok w : emits_only ok (provision_secret w).
Proof.
  unfold provision_secret.
  apply emits_only_bind; [apply emits_only_get|intros fs].
  destruct (settings_base fs) as [base|]; [|apply emits_only_ret].
  apply emits_only_bind; [|intros _].
  { destruct (settings fs); [apply emits_only_ret|apply emits_only_write]. }
  apply emits_only_bind; [apply emits_only_read|intros _].
  apply emits_only_bind; [apply emits_only_get|intros fs'].
  destruct (settings fs') as [on_disk|]; [|apply emits_only_exit].
  cbn zeta. destruct (negb _); [apply emits_only_ret|apply emits_only_write].
Qed.

Lemma emits_only_adjust ok w :
  (∀ cmd, inspects_container cmd → ok (Ran cmd)) →
  emits_only ok (adjust_cap_drop w).
Proof.
  intros Hok. unfold adjust_cap_drop.
  apply emits_only_bind; [apply emits_only_get|intros fs].
  destruct (compose_file fs) as [on_disk|]; [|apply emits_only_ret].
  apply emits_only_bind; [apply emits_only_read|intros _].
  apply emits_only_bind; [|intros ps].
  { apply emits_only_subprocess, Hok. by left. }
  apply emits_only_bind; [|intros first_run].
  { destruct (container_names ps.2) as [|name names];
      [apply emits_only_ret|].
    apply emits_only_bind; [|intros probe; apply emits_only_ret].
    apply emits_only_subprocess, Hok. right. by exists name. }
  destruct (toggle first_run _) as [content modified].
  destruct modified; [apply emits_only_write|apply emits_only_ret].
Qed.

Lemma emits_only_probe ok w port :
  (∀ ready, ok (Probed port ready)) → emits_only ok (probe w port).
Proof.
  intros Hok st. unfold probe.
  pose proof (wait_for_postgres_total
                (Controller.connect w "127.0.0.1" port) 120 (time st))
    as Htotal.
  destruct (wait_for_postgres _ _ _) as [[ready| |] c]; cbn; [| |done].
  - exists [Probed port ready]. split; [done|].
    split; [by apply Forall_singleton|done].
  - exists []. by rewrite app_nil_r.
Qed.

Lemma emits_only_sleep ok w seconds :
  ok (Slept seconds) → emits_only ok (sleep w seconds).
Proof.
  intros Hok st. unfold sleep. destruct (sleep_raises w seconds); cbn.
  - exists []. by rewrite app_nil_r.
  - exists [Slept seconds]. split; [done|].
    split; [by apply Forall_singleton|done].
Qed.

(** From the probe on. *)
Lemma starts_local_from_probe w args :
  starts_local_after_probe w args
    (ready ← probe w (pg_port args);
     when (negb ready && (0 <? wait_seconds args)%Z)
       (sleep w (wait_seconds args));;
     run_command w (compose_up_local_ai (profile args) (environment args)) false;;
     mret ()).
Proof.
  intros st. rewrite bind_unfold. unfold probe.
  pose proof (wait_for_postgres_total
                (Controller.connect w "127.0.0.1" (pg_port args)) 120 (time st))
    as Htotal.
  destruct (wait_for_postgres _ _ _) as [[ready| |] c]; [| |done].
  2: { exists []. cbn. rewrite app_nil_r.
       split; [done|]. split; [done|]. left. constructor. }
  set (st1 := {| files := files st; time := c;
                 trace := trace st ++ [Probed (pg_port args) ready] |}).
  set (up := compose_up_local_ai (profile args) (environment args)).
  assert (Hup : ∀ st2,
    ∃ r st3, (run_command w up false;; mret ()) st2 = (r, st3)
             ∧ r ≠ OutOfFuel ∧ trace st3 = trace st2 ++ [Ran (argv up)]).
  { intros st2. rewrite bind_unfold. unfold run_command.
    destruct (process w _ (argv up)) as [returncode stdout| |];
      [destruct (returncode =? 0)%Z|..]; cbn; by eexists _, _. }
  rewrite bind_unfold. unfold fallback_raises, fallback, when.
  destruct (negb ready && (0 <? wait_seconds args)%Z) eqn:Hfallback.
  - unfold sleep. destruct (sleep_raises w (wait_seconds args)); cbn [andb].
    + exists [Probed (pg_port args) ready]. split; [done|]. split; [done|].
      right. exists [], ready. by rewrite Hfallback.
    + set (st2 := {| files := _; time := _; trace := _ |}).
      destruct (Hup st2) as (r & st3 & -> & Hr & Hlog).
      eexists. split; [|split; [done|]].
      * cbn [snd]. rewrite Hlog. unfold st2, st1. cbn [trace].
        by rewrite <- !app_assoc.
      * right. exists [], ready. by rewrite Hfallback.
  - cbn [mret M_ret andb].
    destruct (Hup st1) as (r & st3 & -> & Hr & Hlog).
    eexists. split; [|split; [done|]].
    + cbn [snd]. rewrite Hlog. unfold st1. cbn [trace].
      by rewrite <- !app_assoc.
    + right. exists [], ready. by rewrite Hfallback.
Qed.

Lemma main_starts_local w args : starts_local_after_probe w args (main w args).
Proof.
  unfold main.
  repeat (apply starts_local_bind; [|intros _]);
    try apply starts_local_from_probe.
  - by apply emits_only_ensure.
  - by apply emits_only_when, emits_only_clone.
  - apply emits_only_prepare.
  - apply emits_only_provision.
  - by apply emits_only_when, emits_only_adjust.
  - by apply emits_only_run.
  - by apply emits_only_run.
Qed.

End ControllerSteps.




(** The run of the example: the probe gives up after the 120 s, and the
    local start-up follows. *)
Example fresh_private_cpu_run :
  (main fresh_world default_args fresh_state).1 = Returned ()
  ∧ time (main fresh_world default_args fresh_state).2
    = {| now := 120060; attempts := 60 |}
  ∧ trace (main fresh_world default_args fresh_state).2
    = [Ran docker_compose_version;
       Ran (argv git_clone);
       Ran (git_ls_remote "master");
       Ran (argv ["git"; "sparse-checkout"; "init"; "--cone"]);
       Ran (argv ["git"; "sparse-checkout"; "set"; "docker"]);
       Ran (argv ["git"; "checkout"; "master"]);
       Ran (argv (compose_down "cpu" "private"));
       Ran (argv (compose_up_supabase "private"));
       Probed 54322 false;
       Ran (argv ["docker"; "compose"; "-p"; "localai";
                  "-f"; "docker-compose.yml";
                  "-f"; "docker-compose.override.private.yml";
                  "--profile"; "cpu"; "up"; "-d"])].
Proof. by vm_compute. Qed.

(** A run that cannot copy the root [.env] stops there, before the
    teardown. *)
Example copy_into_missing_directory :
  main world_without_checkout skip_clone_args state_with_root_env
  = (Raised,
     {| files := files state_with_root_env;
        time := time state_with_root_env;
        trace := [Ran docker_compose_version] |}).
Proof. by vm_compute. Qed.


(** * Further properties *)

Import Readings.

(** ** Composition Command Builder *)

Section ComposeMoreFacts.

Implicit Types environment profile : string.

Lemma compose_profiles_down profile environment :
  compose_profiles (compose_down profile environment) =
  if profile_given profile then [profile] else [].
Proof.
  unfold compose_down.
  destruct (profile_given profile);
    repeat case_bool_decide; reflexivity.
Qed.

Lemma compose_projects_all profile environment :
  compose_projects (compose_down profile environment) = [PROJECT_NAME]
  ∧ compose_projects (compose_up_supabase environment) = [PROJECT_NAME]
  ∧ compose_projects (compose_up_local_ai profile environment) = [PROJECT_NAME].
Proof.
  unfold compose_down, compose_up_supabase, compose_up_local_ai.
  destruct (profile_given profile);
    repeat case_bool_decide; by repeat split.
Qed.

End ComposeMoreFacts.

(** X1: for every environment and all profiles, the teardown names
    exactly the files that the two start-up commands of that environment
    name between them: none is missing and none is extra. *)
Theorem teardown_files_are_startup_files
    (environment profile profile' : string) (f : string) :
  f ∈ compose_files (compose_down profile environment)
  ↔ f ∈ compose_files (compose_up_supabase environment)
    ∨ f ∈ compose_files (compose_up_local_ai profile' environment).
Proof.
  rewrite compose_files_down, compose_files_up_supabase,
    compose_files_up_local_ai.
  repeat case_bool_decide; subst; try done; cbn [app];
    rewrite !elem_of_cons, !elem_of_nil; tauto.
Qed.

(** X2: the three commands address the same project, and the teardown
    carries the same profile filter as the local start-up of the same
    profile: the profile itself unless it is empty or [none]. *)
Theorem commands_share_project_and_profile (environment profile : string) :
  (compose_projects (compose_down profile environment) = ["localai"]
   ∧ compose_projects (compose_up_supabase environment) = ["localai"]
   ∧ compose_projects (compose_up_local_ai profile environment) = ["localai"])
  ∧ compose_profiles (compose_down profile environment)
    = compose_profiles (compose_up_local_ai profile environment)
  ∧ compose_profiles (compose_down profile environment)
    = (if bool_decide (profile = "") || bool_decide (profile = "none")
       then [] else [profile]).
Proof.
  split; [apply compose_projects_all|].
  rewrite compose_profiles_down, compose_profiles_up_local_ai.
  split; [done|]. unfold profile_given.
  by repeat case_bool_decide.
Qed.

(** X3: an environment that is neither [private] nor [public] adds no
    override file to any of the three commands. *)
Theorem unknown_environment_has_no_override
    (environment profile : string) :
  environment ≠ "private" → environment ≠ "public" →
  compose_files (compose_down profile environment)
    = [dependency_file; local_file]
  ∧ compose_files (compose_up_supabase environment) = [dependency_file]
  ∧ compose_files (compose_up_local_ai profile environment) = [local_file].
Proof.
  intros Hprivate Hpublic.
  rewrite compose_files_down, compose_files_up_supabase,
    compose_files_up_local_ai.
  by repeat case_bool_decide.
Qed.

Lemma unknown_environment_has_no_override_witness :
  "staging" ≠ "private" ∧ "staging" ≠ "public"
  ∧ compose_files (compose_down "cpu" "staging")
    = [dependency_file; local_file]
  ∧ compose_files (compose_up_supabase "staging") = [dependency_file]
  ∧ compose_files (compose_up_local_ai "cpu" "staging") = [local_file].
Proof.
  split; [done|]. split; [done|].
  by apply (unknown_environment_has_no_override "staging" "cpu").
Defined.

(** ** Readiness Prober *)

Section ProbeMoreFacts.

Variables (connect : nat → attempt) (timeout start : Z).

Local Abbreviation T := (1000 * timeout)%Z.

(** From a round on, either no attempt is made, or the attempts but the
    last are each followed by a sleep that still fits before the limit. *)
Lemma wait_loop_attempts fuel c :
  let c' := (wait_loop fuel connect timeout start c).2 in
  attempts c ≤ attempts c'
  ∧ (attempts c' = attempts c
     ∨ (POLL_MS * (Z.of_nat (attempts c' - attempts c) - 1)
        < T - (now c - start))%Z).
Proof.
  revert c. induction fuel as [|fuel IH]; intros c; [by split; [|left]|].
  cbn [wait_loop]. unfold POLL_MS in *.
  destruct (Z.ltb_spec (now c - start) T) as [Hlt|Hge];
    [|by split; [|left]].
  pose proof (N2Z.is_nonneg (took (connect (attempts c)))) as Htook.
  destruct (result (connect (attempts c))).
  - clear IH Htook. cbn [snd attempts now]. split; [lia|]. right. lia.
  - set (c2 := advance 2000 _).
    assert (Ha : attempts c2 = S (attempts c)) by done.
    assert (Hc2 : now c2
                  = (now c + Z.of_N (took (connect (attempts c))) + 2000)%Z)
      by done.
    destruct (IH c2) as [Hle Hn]. rewrite Ha in Hle, Hn. rewrite Hc2 in Hn.
    cbn zeta. split; [lia|]. right.
    destruct Hn as [->|Hn]; lia.
  - clear IH Htook. cbn [snd attempts now]. split; [lia|]. right. lia.
Qed.

(** The clock at the end: the time of the attempts made, and one sleep
    after each attempt that was not the last word. *)
Lemma wait_loop_time fuel c :
  let '(r, c') := wait_loop fuel connect timeout start c in
  let n := attempts c' - attempts c in
  attempts c ≤ attempts c'
  ∧ (now c' - now c
     = spent connect (attempts c) n
       + POLL_MS * match r with
                   | Returned false | OutOfFuel => Z.of_nat n
                   | _ => Z.of_nat n - 1
                   end)%Z.
Proof.
  revert c. induction fuel as [|fuel IH]; intros c.
  - cbn [wait_loop]. rewrite Nat.sub_diag. cbn [spent]. split; [done|lia].
  - cbn [wait_loop]. unfold POLL_MS in *.
    destruct (Z.ltb_spec (now c - start) T) as [Hlt|Hge].
    + destruct (result (connect (attempts c))).
      * cbn [attempts now].
        replace (S (attempts c) - attempts c) with 1 by lia.
        cbn [spent]. split; [lia|lia].
      * set (c2 := advance 2000 _). specialize (IH c2).
        assert (Ha : attempts c2 = S (attempts c)) by done.
        assert (Hc2 : now c2
                      = (now c + Z.of_N (took (connect (attempts c))) + 2000)%Z)
          by done.
        destruct (wait_loop fuel connect timeout start c2) as [r c'].
        rewrite Ha, Hc2 in IH. destruct IH as [Hle Htime].
        cbn zeta. split; [lia|].
        replace (attempts c' - attempts c)
          with (S (attempts c' - S (attempts c))) by lia.
        cbn [spent]. rewrite Nat2Z.inj_succ.
        destruct r as [[|]| |]; lia.
      * cbn [attempts now].
        replace (S (attempts c) - attempts c) with 1 by lia.
        cbn [spent]. split; [lia|lia].
    + rewrite Nat.sub_diag. cbn [spent]. split; [done|lia].
Qed.

End ProbeMoreFacts.

(** X4: whatever the target does, the probe makes at most one connection
    attempt per started poll interval of the timeout (60 for the default
    120 s), and none at all when the timeout is zero or negative. *)
Theorem probe_attempts_bounded (connect : nat → attempt) (timeout : Z)
    (c : clock) :
  let c' := (wait_for_postgres connect timeout c).2 in
  attempts c ≤ attempts c'
  ∧ (POLL_MS * (Z.of_nat (attempts c' - attempts c) - 1)
     < Z.max 0 (1000 * timeout))%Z.
Proof.
  unfold wait_for_postgres.
  destruct (wait_loop_attempts connect timeout (now c) (rounds timeout) c)
    as [Hle Hn].
  split; [done|]. unfold POLL_MS in *.
  destruct Hn as [->|Hn]; lia.
Qed.

(** X5: the probe sleeps one poll interval after every failed attempt and
    never after one that connects or raises: the time it takes is the time
    of its attempts plus one poll interval per attempt when it returns
    [False], and per attempt but the last otherwise. *)
Theorem probe_time_accounting (connect : nat → attempt) (timeout : Z)
    (c : clock) :
  ∃ r c', wait_for_postgres connect timeout c = (r, c')
    ∧ r ≠ OutOfFuel
    ∧ attempts c ≤ attempts c'
    ∧ (now c' - now c
       = spent connect (attempts c) (attempts c' - attempts c)
         + POLL_MS * match r with
                     | Returned false => Z.of_nat (attempts c' - attempts c)
                     | _ => Z.of_nat (attempts c' - attempts c) - 1
                     end)%Z.
Proof.
  pose proof (wait_for_postgres_total connect timeout c) as Htotal.
  unfold wait_for_postgres in *.
  pose proof (wait_loop_time connect timeout (now c) (rounds timeout) c)
    as Htime.
  destruct (wait_loop _ _ _ _ _) as [r c'].
  exists r, c'. cbn in Htotal. destruct Htime as [Hle Htime].
  split; [done|]. split; [done|]. split; [done|].
  by destruct r as [[|]| |].
Qed.

(** ** Environment Merger *)

Section MergeMoreFacts.

Implicit Types s d k v line : text.
Implicit Types ls : list text.

Lemma read_existing_foldl ls : read_existing ls = foldl record_line ∅ ls.
Proof. done. Qed.

Lemma record_line_snoc_lf acc l : record_line acc (l ++ [LF]) = record_line acc l.
Proof.
  unfold record_line, assignment, rstrip_newlines.
  by rewrite is_assignment_snoc_lf, rstrip_where_snoc.
Qed.

(** Terminating the last line does not change what the loop reads. *)
Lemma foldl_record_after_newline ls acc :
  lines_shape ls →
  foldl record_line acc (file_lines (concat ls ++ [LF]))
  = foldl record_line acc ls.
Proof.
  intros Hshape. revert acc.
  induction Hshape as [|l Hl Hne|l ls Hl Hls IH]; intros acc.
  - done.
  - cbn [concat]. rewrite app_nil_r, file_lines_one_terminated by done.
    cbn [foldl]. apply record_line_snoc_lf.
  - cbn [concat]. rewrite <- !app_assoc. cbn [app].
    rewrite file_lines_terminated by done. cbn [foldl]. apply IH.
Qed.

Lemma lines_before_newline ls l :
  lines_shape ls → l ∈ file_lines (concat ls ++ [LF]) →
  l = [LF] ∨ l ∈ ls ∨ ∃ l0, l0 ∈ ls ∧ l = l0 ++ [LF].
Proof.
  induction 1 as [|l0 Hl Hne|l0 ls Hl Hls IH]; intros Hin.
  - apply list_elem_of_singleton in Hin. by left.
  - cbn [concat] in Hin.
    rewrite app_nil_r, file_lines_one_terminated in Hin by done.
    apply list_elem_of_singleton in Hin as ->.
    right. right. exists l0. by split; [left|].
  - cbn [concat] in Hin. rewrite <- !app_assoc in Hin. cbn [app] in Hin.
    rewrite file_lines_terminated in Hin by done.
    apply elem_of_cons in Hin as [->|Hin]; [right; left; by left|].
    destruct (IH Hin) as [?|[?|(l1 & ? & ?)]]; [by left|right; left; by right|].
    right. right. exists l1. by split; [right|].
Qed.

(** Lines whose keys are all different from [k] leave the entry of [k]
    alone. *)
Lemma foldl_record_other ls acc k :
  (∀ line, line ∈ ls → is_assignment line = true → key_of line ≠ k) →
  foldl record_line acc ls !! k = acc !! k.
Proof.
  revert acc. induction ls as [|l ls IH]; intros acc Hls; [done|].
  cbn [foldl]. rewrite IH by (intros line Hin; apply Hls; by right).
  unfold record_line. destruct (is_assignment l) eqn:Hl; [|done].
  pose proof (Hls l ltac:(by left) Hl) as Hk. unfold key_of in Hk.
  destruct (assignment l) as [k' v']. by apply lookup_insert_ne.
Qed.

Lemma marker_line_is_comment :
  is_assignment (txt "# Added from root .env" ++ [LF]) = false.
Proof. reflexivity. Qed.

(** The dictionary of the merged file: the old one, then the marker and
    the additions on top. *)
Lemma merged_dict s d :
  env_dict (d ++ marker ++ concat (additions s d))
  = foldl record_line (env_dict d)
      ([txt "# Added from root .env" ++ [LF]] ++ additions s d).
Proof.
  unfold env_dict.
  destruct (merged_lines s d) as (a' & Ha & ->).
  rewrite !read_existing_foldl, foldl_app. f_equal.
  destruct Ha as [->| ->]; [|done].
  rewrite <- (concat_file_lines a') at 1.
  apply foldl_record_after_newline, file_lines_shape.
Qed.

Lemma has_key_dict d k : has_key d k ↔ k ∈ dom (env_dict d).
Proof. symmetry. apply existing_has_key. Qed.

End MergeMoreFacts.

(** X6: when the destination exists, every key keeps, in the merged
    file, the value that the script read for it before the merge. *)
Theorem merge_keeps_values (src : option text) (d k v : text) :
  env_dict d !! k = Some v →
  ∃ merged, (prepare_supabase_env src (Some d)).1 = Some merged
            ∧ env_dict merged !! k = Some v.
Proof.
  intros Hk. destruct src as [s|]; [|by exists d].
  cbn [prepare_supabase_env].
  destruct (additions s d) as [|l adds] eqn:Hadds; [by exists d|].
  eexists. split; [done|]. rewrite <- Hadds, merged_dict.
  rewrite foldl_record_other; [done|].
  intros line Hin Hline Heq.
  apply elem_of_app in Hin as [Hin|Hin].
  - apply list_elem_of_singleton in Hin as ->.
    by rewrite marker_line_is_comment in Hline.
  - apply additions_spec in Hin as (_ & _ & Hnew). apply Hnew.
    apply has_key_dict, elem_of_dom. rewrite Heq. by eexists.
Qed.

Lemma merge_keeps_values_witness :
  let d := txt "PORT=5432" in
  let s := txt "PORT=9999" ++ [LF] ++ txt "POOLER=on" ++ [LF] in
  env_dict d !! txt "PORT" = Some (txt "5432")
  ∧ ∃ merged, (prepare_supabase_env (Some s) (Some d)).1 = Some merged
              ∧ env_dict merged !! txt "PORT" = Some (txt "5432").
Proof.
  split; [by vm_compute|].
  apply (merge_keeps_values
           (Some (txt "PORT=9999" ++ [LF] ++ txt "POOLER=on" ++ [LF]))
           (txt "PORT=5432") (txt "PORT") (txt "5432")).
  by vm_compute.
Defined.

(** X7: after the merge of an existing source, the destination defines
    exactly the keys that the source or the old destination defined. *)
Theorem merge_keys_are_union (s : text) (dest : option text) (k : text) :
  ∃ merged, (prepare_supabase_env (Some s) dest).1 = Some merged
            ∧ (has_key merged k
               ↔ has_key s k ∨ ∃ d, dest = Some d ∧ has_key d k).
Proof.
  destruct dest as [d|].
  2: { exists s. split; [done|]. split; [by left|].
       by intros [?|(d & ? & _)]. }
  assert (Hsrc : has_key s k → ¬ has_key d k →
                 ∃ line, line ∈ additions s d ∧ key_of line = k).
  { intros (line & Hin & Hline & <-) Hnew. exists line.
    split; [|done]. by apply additions_spec. }
  assert (Hdec : has_key d k ∨ ¬ has_key d k).
  { rewrite has_key_dict. destruct (decide (k ∈ dom (env_dict d))); tauto. }
  cbn [prepare_supabase_env].
  destruct (additions s d) as [|l adds] eqn:Hadds.
  - exists d. split; [done|]. split; [intros ?; right; by exists d|].
    intros [Hs|(d' & [= <-] & Hd)]; [|done].
    destruct Hdec as [?|Hnew]; [done|].
    destruct (Hsrc Hs Hnew) as (line & Hin & _). by apply elem_of_nil in Hin.
  - eexists. split; [done|]. rewrite <- Hadds in *. split.
    + intros (line & Hin & Hline & Hkey).
      destruct (merged_lines s d) as (a' & Ha & Hlines).
      rewrite Hlines in Hin.
      apply elem_of_app in Hin as [Hin|Hin];
        [|apply elem_of_app in Hin as [Hin|Hin]].
      * right. exists d. split; [done|].
        destruct Ha as [Ha|Ha]; unfold has_key; rewrite Ha;
          [|by exists line].
        rewrite <- (concat_file_lines a') in Hin at 1.
        apply lines_before_newline in Hin as [->|[Hin|(l0 & Hin & ->)]];
          [done|by exists line| |apply file_lines_shape].
        exists l0. by rewrite is_assignment_snoc_lf, key_of_snoc_lf in *.
      * apply list_elem_of_singleton in Hin as ->.
        by rewrite marker_line_is_comment in Hline.
      * left. apply additions_spec in Hin as (Hin & _). by exists line.
    + intros [Hs|(d' & [= <-] & Hd)]; [|by apply merged_keeps_keys].
      destruct Hdec as [?|Hnew]; [by apply merged_keeps_keys|].
      destruct (Hsrc Hs Hnew) as (line & Hin & <-).
      by apply merged_has_added_keys.
Qed.

(** ** Capability Toggle Manager and line ends *)

Section ToggleMoreFacts.

Implicit Types s t a b repl : text.

(** Where the search succeeds, the substitution puts the replacement. *)
Lemma sub_from_puts_replacement re repl bol s :
  (∀ t, match_items (items re) t ≠ Some 0) →
  search_from re bol s = true →
  ∃ a b, sub_from re repl 0 bol s = a ++ repl ++ b.
Proof.
  intros Hne. revert bol. induction s as [|c s IH]; intros bol Hs.
  - cbn in Hs. rewrite orb_false_r in Hs. apply bool_decide_eq_true in Hs.
    unfold match_at in Hs. destruct (at_line_start re && negb bol).
    + by destruct Hs.
    + destruct Hs as [n Hn]. destruct n; [by apply Hne in Hn|].
      exfalso. clear -Hn. revert Hn.
      generalize (items re). intros p.
      induction p as [|[x|] p IHp]; [done..|]. by rewrite match_spaces_nil.
  - cbn [search_from] in Hs. cbn [sub_from].
    destruct (match_at re bol (c :: s)) as [[|k]|] eqn:Hm.
    + unfold match_at in Hm. destruct (at_line_start re && negb bol); [done|].
      by apply Hne in Hm.
    + by exists [], (sub_from re repl k (c =? LF)%N s).
    + cbn in Hs. destruct (IH _ Hs) as (a & b & ->). by exists (c :: a), b.
Qed.

(** A pattern without anchor is found wherever it matches. *)
Lemma search_from_inside re bol a t :
  at_line_start re = false → is_Some (match_items (items re) t) →
  search_from re bol (a ++ t) = true.
Proof.
  intros Hfree Ht. revert bol. induction a as [|c a IH]; intros bol.
  - destruct t; cbn; unfold match_at; rewrite Hfree; cbn;
      by rewrite bool_decide_eq_true_2.
  - cbn [app search_from]. rewrite IH. apply orb_true_r.
Qed.

Lemma commented_matches_disabled_text b :
  is_Some (match_items (items commented_pattern) (disabled_text ++ b)).
Proof. exists 17. reflexivity. Qed.

Lemma active_never_empty t : match_items (items active_pattern) t ≠ Some 0.
Proof. by apply (match_nonempty HASH). Qed.

Lemma sub_from_elem re repl k bol s c :
  c ∈ sub_from re repl k bol s → c ∈ s ∨ c ∈ repl.
Proof.
  revert k bol. induction s as [|x s IH]; intros k bol H; [by left|].
  cbn [sub_from] in H. destruct k as [|k].
  - destruct (match_at re bol (x :: s)) as [[|n]|].
    + apply elem_of_cons in H as [->|H]; [left; by left|].
      destruct (IH _ _ H); [left; by right|by right].
    + apply elem_of_app in H as [H|H]; [by right|].
      destruct (IH _ _ H); [left; by right|by right].
    + apply elem_of_cons in H as [->|H]; [left; by left|].
      destruct (IH _ _ H); [left; by right|by right].
  - destruct (IH _ _ H); [left; by right|by right].
Qed.

Lemma toggle_no_cr first_run on_disk :
  CR ∉ (toggle first_run (universal_newlines on_disk)).1.
Proof.
  assert (Hsub : ∀ re repl, CR ∉ repl →
                 CR ∉ sub re repl (universal_newlines on_disk)).
  { intros re repl Hrepl Hin. apply sub_from_elem in Hin as [Hin|Hin]; [|done].
    by apply universal_newlines_no_cr in Hin. }
  assert (Hcr : ∀ t : text, CR ∈ t → In CR t) by (intros t; apply list_elem_of_In).
  unfold toggle. repeat case_match; cbn [fst].
  - apply Hsub. intros Hin%Hcr. vm_compute in Hin. intuition discriminate.
  - apply Hsub. intros Hin%Hcr. vm_compute in Hin. intuition discriminate.
  - apply universal_newlines_no_cr.
Qed.

End ToggleMoreFacts.

(** X8: a document that the first-run transform rewrites is recognised
    as disabled afterwards: the commented pattern matches the result, so
    that the next run that is not a first run rewrites it again. *)
Theorem disabled_document_is_reenabled (content : text) :
  search active_pattern content = true →
  let disabled := (toggle true content).1 in
  (toggle true content).2 = true
  ∧ search commented_pattern disabled = true
  ∧ (toggle false disabled).2 = true.
Proof.
  intros Hactive disabled.
  assert (Hd : disabled = sub active_pattern disabled_text content).
  { unfold disabled, toggle. cbn [andb]. by rewrite Hactive. }
  assert (Hcommented : search commented_pattern disabled = true).
  { rewrite Hd.
    destruct (sub_from_puts_replacement active_pattern disabled_text true
                content active_never_empty Hactive) as (a & b & Hsub).
    unfold sub, search. rewrite Hsub.
    apply search_from_inside; [done|apply commented_matches_disabled_text]. }
  split; [|split; [done|]].
  - unfold toggle. cbn [andb]. by rewrite Hactive.
  - unfold toggle. cbn [andb negb]. by rewrite Hcommented.
Qed.

Lemma disabled_document_is_reenabled_witness :
  search active_pattern searxng_service = true
  ∧ let disabled := (toggle true searxng_service).1 in
    (toggle true searxng_service).2 = true
    ∧ search commented_pattern disabled = true
    ∧ (toggle false disabled).2 = true.
Proof.
  split; [by vm_compute|].
  apply (disabled_document_is_reenabled searxng_service). by vm_compute.
Defined.

(** X9: whenever the script rewrites [docker-compose.yml] or writes a
    secret into [settings.yml], the new text has no carriage return left
    (line ends come out as [\n]); a composition document that it does not
    rewrite stays as it is on disk. *)
Theorem rewritten_files_have_unix_line_ends
    (first_run : bool) (on_disk : text) (random : nat → Byte.byte)
    (settings_base settings : option text) :
  (∃ result,
     adjust_cap_drop_first_run first_run (Some on_disk) = Some result
     ∧ if (toggle first_run (universal_newlines on_disk)).2
       then CR ∉ result else result = on_disk)
  ∧ ((generate_searxng_secret_key random settings_base settings).2 = false
     ∨ ∃ content,
         (generate_searxng_secret_key random settings_base settings).1
         = Some content ∧ CR ∉ content).
Proof.
  split.
  - cbn [adjust_cap_drop_first_run].
    pose proof (toggle_no_cr first_run on_disk) as Hcr.
    destruct (toggle first_run (universal_newlines on_disk))
      as [content [|]]; by eexists.
  - unfold generate_searxng_secret_key.
    destruct settings_base as [base|]; [|by left].
    cbn zeta. destruct (contains placeholder _); cbn [negb]; [right|by left].
    eexists. split; [done|]. apply provisioned_text_no_cr.
Qed.


(** ** Orchestration Controller *)

Section RunRules.

Context {A B : Type}.
Implicit Types (m : M A) (k : A → M B) (ok : event → Prop).

Lemma stops_with_bind ok m k :
  emits_only ok m → (∀ a, stops_with ok (k a)) → stops_with ok (m ≫= k).
Proof.
  intros Hm Hk st. rewrite bind_unfold.
  destruct (Hm st) as (added1 & Hlog1 & Hok1 & Hfuel1).
  destruct (m st) as [[a| |] st1]; cbn in *; [|by exists added1|done].
  destruct (Hk a st1) as (added2 & Hlog2 & Hok2 & Hstop).
  exists (added1 ++ added2). rewrite Hlog2, Hlog1, <- app_assoc.
  split; [done|]. split; [by apply Forall_app|done].
Qed.

Lemma keeps_bind field m k :
  keeps field m → (∀ a, keeps field (k a)) → keeps field (m ≫= k).
Proof.
  intros Hm Hk st. rewrite bind_unfold. specialize (Hm st).
  destruct (m st) as [[a| |] st1]; cbn in *; [|done..].
  by rewrite Hk.
Qed.

Lemma same_files_bind m k :
  same_files m → (∀ a, same_files (k a)) → same_files (m ≫= k).
Proof.
  intros Hm Hk st. rewrite bind_unfold. specialize (Hm st).
  destruct (m st) as [[a| |] st1]; cbn in *; [|done..].
  by rewrite Hk.
Qed.

Lemma bind_returns m k st b st' :
  (m ≫= k) st = (Returned b, st') →
  ∃ a st1, m st = (Returned a, st1) ∧ k a st1 = (Returned b, st').
Proof.
  rewrite bind_unfold. destruct (m st) as [[a| |] st1]; [|done..].
  intros H. by exists a, st1.
Qed.

Lemma completes_in_order_bind w args m k :
  emits_only prepares m → (∀ a, completes_in_order w args (k a)) →
  completes_in_order w args (m ≫= k).
Proof.
  intros Hm Hk st b st' Hrun.
  apply bind_returns in Hrun as (a & st1 & Hfirst & Hrun).
  destruct (Hm st) as (added1 & Hlog1 & Hok1 & _).
  rewrite Hfirst in Hlog1. cbn [snd] in Hlog1.
  destruct (Hk a st1 b st' Hrun) as (pre & ready & Hpre & Hlog & Hsup & Hloc).
  exists (added1 ++ pre), ready. split; [by apply Forall_app|].
  rewrite Hlog1, <- !app_assoc in *. by rewrite Hlog.
Qed.

Lemma bind_ext (m m' : M A) (k k' : A → M B) st :
  (∀ st, m st = m' st) → (∀ a st, k a st = k' a st) →
  (m ≫= k) st = (m' ≫= k') st.
Proof.
  intros Hm Hk. rewrite !bind_unfold, Hm.
  destruct (m' st) as [[a| |] st1]; [apply Hk|done..].
Qed.

End RunRules.

Section CommandShapes.

Implicit Types (args : Args) (cmd : list string) (a : list text).

Lemma txt_inj s1 s2 : txt s1 = txt s2 → s1 = s2.
Proof.
  unfold txt. intros H.
  rewrite <- (string_of_list_ascii_of_string s1),
          <- (string_of_list_ascii_of_string s2).
  f_equal. revert H.
  generalize (list_ascii_of_string s1), (list_ascii_of_string s2).
  intros l1. induction l1 as [|c1 l1 IH]; intros [|c2 l2] H; try done.
  injection H as Hc Hl. f_equal; [|by apply IH].
  rewrite <- (ascii_N_embedding c1), <- (ascii_N_embedding c2).
  by rewrite Hc.
Qed.

Lemma argv_inj cmd1 cmd2 : argv cmd1 = argv cmd2 → cmd1 = cmd2.
Proof.
  unfold argv. revert cmd2.
  induction cmd1 as [|s1 cmd1 IH]; intros [|s2 cmd2] H; try done.
  injection H as Hs Hl. f_equal; [by apply txt_inj|by apply IH].
Qed.

Lemma argv_lookup cmd i : argv cmd !! i = txt <$> cmd !! i.
Proof. apply list_lookup_fmap. Qed.

Lemma compose_down_ends profile environment :
  compose_down profile environment !! 1 = Some "compose"
  ∧ compose_down profile environment !! 2 = Some "-p"
  ∧ last (compose_down profile environment) = Some "--remove-orphans".
Proof.
  unfold compose_down.
  by destruct (profile_given profile); repeat case_bool_decide.
Qed.

Lemma compose_up_supabase_ends environment :
  compose_up_supabase environment !! 1 = Some "compose"
  ∧ compose_up_supabase environment !! 2 = Some "-p"
  ∧ compose_up_supabase environment !! 5 = Some dependency_file
  ∧ last (compose_up_supabase environment) = Some "-d".
Proof. unfold compose_up_supabase. by repeat case_bool_decide. Qed.

Lemma compose_up_local_ai_ends profile environment :
  compose_up_local_ai profile environment !! 1 = Some "compose"
  ∧ compose_up_local_ai profile environment !! 2 = Some "-p"
  ∧ compose_up_local_ai profile environment !! 5 = Some local_file
  ∧ last (compose_up_local_ai profile environment) = Some "-d".
Proof.
  unfold compose_up_local_ai.
  by destruct (profile_given profile); repeat case_bool_decide.
Qed.

Lemma composition_addresses_project args a :
  a ∈ composition_commands args → addresses_project a.
Proof.
  destruct (compose_down_ends (profile args) (environment args))
    as (Hd1 & Hd2 & _).
  destruct (compose_up_supabase_ends (environment args))
    as (Hs1 & Hs2 & _).
  destruct (compose_up_local_ai_ends (profile args) (environment args))
    as (Hl1 & Hl2 & _).
  unfold composition_commands, addresses_project. intros H.
  repeat (apply elem_of_cons in H as [->|H];
          [rewrite !argv_lookup; by repeat match goal with
                                           | H : _ !! _ = _ |- _ => rewrite H
                                           end|]).
  by apply elem_of_nil in H.
Qed.

Lemma preparation_addresses_no_project a :
  a = docker_compose_version ∨ a ∈ git_commands ∨ inspects_container a →
  ¬ addresses_project a.
Proof.
  intros Ha [H1 H2].
  destruct Ha as [->|[Ha|[->|[name ->]]]].
  - apply (inj Some), txt_inj in H2. discriminate H2.
  - unfold git_commands in Ha.
    repeat (apply elem_of_cons in Ha as [->|Ha];
            [apply (inj Some), txt_inj in H1; discriminate H1|]).
    by apply elem_of_nil in Ha.
  - apply (inj Some), txt_inj in H1. discriminate H1.
  - apply (inj Some), txt_inj in H1. discriminate H1.
Qed.

End CommandShapes.

Section RunSteps.

Implicit Types (w : World) (args : Args) (st : State) (ok : event → Prop).

Lemma same_files_of {A} (m : M A) :
  (∀ st, files (m st).2 = files st) → same_files m.
Proof. done. Qed.

Lemma keeps_same field {A} (m : M A) : same_files m → keeps field m.
Proof. intros H st. by rewrite H. Qed.

Lemma same_files_ret {A} (a : A) : same_files (mret a : M A).
Proof. done. Qed.

Lemma same_files_exit {A} : same_files (exit : M A).
Proof. done. Qed.

Lemma same_files_subprocess w cmd : same_files (subprocess_run w cmd).
Proof. intros st. unfold subprocess_run. by destruct (process w _ cmd). Qed.

Lemma same_files_run w cmd allow_fail :
  same_files (run_command w cmd allow_fail).
Proof.
  intros st. unfold run_command.
  by destruct (process w _ (argv cmd)) as [returncode stdout| |];
    [destruct (returncode =? 0)%Z|..]; destruct allow_fail.
Qed.

Lemma same_files_read w op : same_files (read_file w op).
Proof. intros st. unfold read_file. by destruct (io_raises w op). Qed.

Lemma same_files_when b m : same_files m → same_files (when b m).
Proof. by destruct b. Qed.

Lemma same_files_ensure w : same_files (ensure_binaries w).
Proof.
  unfold ensure_binaries. destruct (List.filter _ _); [|done].
  apply same_files_bind; [apply same_files_subprocess|intros res].
  by destruct (negb _).
Qed.

Lemma same_files_try w branches : same_files (try_branches w branches).
Proof.
  induction branches as [|branch rest IH]; [done|]. cbn [try_branches].
  apply same_files_bind; [apply same_files_subprocess|intros r].
  by destruct (contains _ _).
Qed.

Lemma same_files_clone w : same_files (clone_or_update_supabase w).
Proof.
  unfold clone_or_update_supabase, resolve_supabase_branch.
  destruct (negb (repo_exists w));
    repeat first
      [ apply same_files_run | apply same_files_try | apply same_files_ret
      | apply same_files_bind; [|intros ?] ].
Qed.

Lemma same_files_probe w port : same_files (probe w port).
Proof.
  intros st. unfold probe.
  by destruct (wait_for_postgres _ _ _) as [[ready| |] c].
Qed.

Lemma same_files_sleep w seconds : same_files (sleep w seconds).
Proof. intros st. unfold sleep. by destruct (sleep_raises w seconds). Qed.

Lemma keeps_write field w op put content :
  (∀ v fs, field (put v fs) = field fs) →
  keeps field (write_file w op put content).
Proof.
  intros Hput st. unfold write_file.
  destruct (io_raises w op); cbn; apply Hput.
Qed.

Lemma keeps_prepare field w :
  (∀ v fs, field (put_supabase_env v fs) = field fs) →
  keeps field (prepare_env w).
Proof.
  intros Hput. unfold prepare_env.
  apply keeps_bind; [done|intros fs].
  destruct (root_env fs) as [src|]; [|done].
  destruct (supabase_env fs) as [dest|]; [|by apply keeps_write].
  apply keeps_bind; [apply keeps_same, same_files_read|intros _].
  apply keeps_bind; [apply keeps_same, same_files_read|intros _].
  destruct (additions src dest); [done|by apply keeps_write].
Qed.

Lemma keeps_provision field w :
  (∀ v fs, field (put_settings v fs) = field fs) →
  keeps field (provision_secret w).
Proof.
  intros Hput. unfold provision_secret.
  apply keeps_bind; [done|intros fs].
  destruct (settings_base fs) as [base|]; [|done].
  apply keeps_bind; [|intros _].
  { destruct (settings fs); [done|by apply keeps_write]. }
  apply keeps_bind; [apply keeps_same, same_files_read|intros _].
  apply keeps_bind; [done|intros fs'].
  destruct (settings fs') as [on_disk|]; [|done].
  cbn zeta. destruct (negb _); [done|by apply keeps_write].
Qed.

Lemma keeps_adjust field w :
  (∀ v fs, field (put_compose_file v fs) = field fs) →
  keeps field (adjust_cap_drop w).
Proof.
  intros Hput. unfold adjust_cap_drop.
  apply keeps_bind; [done|intros fs].
  destruct (compose_file fs) as [on_disk|]; [|done].
  apply keeps_bind; [apply keeps_same, same_files_read|intros _].
  apply keeps_bind; [apply keeps_same, same_files_subprocess|intros ps].
  apply keeps_bind; [|intros first_run].
  { apply keeps_same. destruct (container_names ps.2); [done|].
    apply same_files_bind; [apply same_files_subprocess|done]. }
  destruct (toggle first_run _) as [content modified].
  destruct modified; [by apply keeps_write|done].
Qed.

(** From the teardown on, no file is touched. *)
Lemma same_files_composition w args :
  same_files
    (run_command w (compose_down (profile args) (environment args)) true;;
     run_command w (compose_up_supabase (environment args)) false;;
     ready ← probe w (pg_port args);
     when (negb ready && (0 <? wait_seconds args)%Z)
       (sleep w (wait_seconds args));;
     run_command w (compose_up_local_ai (profile args) (environment args))
       false;;
     mret ()).
Proof.
  apply same_files_bind; [apply same_files_run|intros _].
  apply same_files_bind; [apply same_files_run|intros _].
  apply same_files_bind; [apply same_files_probe|intros ready].
  apply same_files_bind; [apply same_files_when, same_files_sleep|intros _].
  apply same_files_bind; [apply same_files_run|done].
Qed.

(** The steps of [main] other than the three that edit files. *)
Lemma main_keeps field w args :
  keeps field (prepare_env w) → keeps field (provision_secret w) →
  keeps field (when (negb (no_cap_adjust args)) (adjust_cap_drop w)) →
  keeps field (main w args).
Proof.
  intros Hprepare Hprovision Hadjust. unfold main.
  apply keeps_bind; [apply keeps_same, same_files_ensure|intros _].
  apply keeps_bind;
    [apply keeps_same, same_files_when, same_files_clone|intros _].
  apply keeps_bind; [done|intros _].
  apply keeps_bind; [done|intros _].
  apply keeps_bind; [done|intros _].
  apply keeps_same, same_files_composition.
Qed.

(** The events of a whole run. *)
Lemma main_emits_known w args : emits_only (known_event args) (main w args).
Proof.
  assert (Hcompose : ∀ n cmd,
    composition_commands args !! n = Some cmd → known_event args (Ran cmd)).
  { intros n cmd Hn. cbn [known_event]. do 3 right.
    apply list_elem_of_lookup. by exists n. }
  unfold main.
  apply emits_only_bind; [apply emits_only_ensure; by left|intros _].
  apply emits_only_bind; [|intros _].
  { destruct (skip_clone args) eqn:Hskip; [apply emits_only_ret|].
    apply emits_only_clone. intros cmd Hcmd. right. by left. }
  apply emits_only_bind; [apply emits_only_prepare|intros _].
  apply emits_only_bind; [apply emits_only_provision|intros _].
  apply emits_only_bind; [|intros _].
  { destruct (no_cap_adjust args) eqn:Hflag; [apply emits_only_ret|].
    apply emits_only_adjust. intros cmd Hcmd. right. right. by left. }
  apply emits_only_bind; [by apply emits_only_run, (Hcompose 0)|intros _].
  apply emits_only_bind; [by apply emits_only_run, (Hcompose 1)|intros _].
  apply emits_only_bind; [by apply emits_only_probe|intros ready].
  apply emits_only_bind; [|intros _].
  { destruct (negb ready && (0 <? wait_seconds args)%Z) eqn:Hwait;
      [|apply emits_only_ret].
    apply andb_prop in Hwait as [_ Hwait%Z.ltb_lt].
    by apply emits_only_sleep. }
  apply emits_only_bind; [by apply emits_only_run, (Hcompose 2)|intros _].
  apply emits_only_ret.
Qed.

(** The steps before the teardown. *)
Lemma preparation_emits ok w args :
  (∀ e, prepares e → ok e) →
  emits_only ok (ensure_binaries w)
  ∧ emits_only ok (when (negb (skip_clone args)) (clone_or_update_supabase w))
  ∧ emits_only ok (when (negb (no_cap_adjust args)) (adjust_cap_drop w)).
Proof.
  intros Hok. split; [|split].
  - apply emits_only_ensure, Hok. eexists. split; [done|by left].
  - apply emits_only_when, emits_only_clone. intros cmd Hcmd.
    apply Hok. eexists. split; [done|]. right. by left.
  - apply emits_only_when, emits_only_adjust. intros cmd Hcmd.
    apply Hok. eexists. split; [done|]. right. by right.
Qed.

End RunSteps.


(** X11: a run never changes the root [.env] nor [settings-base.yml],
    and under [--no-cap-adjust] it leaves [docker-compose.yml] alone as
    well. *)
Theorem main_keeps_its_inputs (w : World) (args : Args) (st : State) :
  let after := files (main w args st).2 in
  root_env after = root_env (files st)
  ∧ settings_base after = settings_base (files st)
  ∧ (no_cap_adjust args = false
     ∨ compose_file after = compose_file (files st)).
Proof.
  split; [|split].
  - apply (main_keeps root_env);
      [by apply keeps_prepare|by apply keeps_provision|].
    intros st'. unfold when.
    destruct (negb (no_cap_adjust args)); [by apply keeps_adjust|done].
  - apply (main_keeps settings_base);
      [by apply keeps_prepare|by apply keeps_provision|].
    intros st'. unfold when.
    destruct (negb (no_cap_adjust args)); [by apply keeps_adjust|done].
  - destruct (no_cap_adjust args) eqn:Hflag; [right|by left].
    apply (main_keeps compose_file);
      [by apply keeps_prepare|by apply keeps_provision|].
    by rewrite Hflag.
Qed.


Section MainOutcomes.

Implicit Types (w : World) (args : Args) (st : State).

Lemma run_command_returns w cmd allow_fail st r st1 :
  run_command w cmd allow_fail st = (Returned r, st1) →
  st1 = called (argv cmd) st
  ∧ (allow_fail = false → succeeded w (length (trace st)) cmd).
Proof.
  unfold run_command, succeeded.
  destruct (process w _ (argv cmd)) as [returncode stdout| |];
    [destruct (Z.eqb_spec returncode 0) as [->|]|..];
    destruct allow_fail; intros [= <- <-]; split; try done.
  intros _. by exists stdout.
Qed.

Lemma run_command_fails w cmd st :
  (∀ stdout, process w (length (trace st)) (argv cmd) ≠ Exited 0 stdout) →
  run_command w cmd false st = (Raised, called (argv cmd) st).
Proof.
  intros Hfail. unfold run_command.
  destruct (process w _ (argv cmd)) as [returncode stdout| |]; [|done..].
  destruct (Z.eqb_spec returncode 0) as [->|]; [|done].
  by destruct (Hfail stdout).
Qed.

Lemma probe_returns w port st ready st1 :
  probe w port st = (Returned ready, st1) →
  trace st1 = trace st ++ [Probed port ready].
Proof.
  unfold probe. destruct (wait_for_postgres _ _ _) as [[ready'| |] c];
    [|done..].
  by intros [= <- <-].
Qed.

Lemma fallback_returns w args ready st u st1 :
  when (negb ready && (0 <? wait_seconds args)%Z)
    (sleep w (wait_seconds args)) st = (Returned u, st1) →
  trace st1 = trace st ++ fallback args ready.
Proof.
  unfold when, fallback, sleep.
  destruct (negb ready && (0 <? wait_seconds args)%Z).
  - destruct (sleep_raises w (wait_seconds args)); [done|].
    by intros [= _ <-].
  - intros [= _ <-]. by rewrite app_nil_r.
Qed.

(** From the teardown on. *)
Lemma composition_completes w args :
  completes_in_order w args
    (run_command w (compose_down (profile args) (environment args)) true;;
     run_command w (compose_up_supabase (environment args)) false;;
     ready ← probe w (pg_port args);
     when (negb ready && (0 <? wait_seconds args)%Z)
       (sleep w (wait_seconds args));;
     run_command w (compose_up_local_ai (profile args) (environment args))
       false;;
     mret ()).
Proof.
  intros st a st' Hrun.
  apply bind_returns in Hrun as (r1 & st1 & H1 & Hrun).
  apply run_command_returns in H1 as [-> _].
  apply bind_returns in Hrun as (r2 & st2 & H2 & Hrun).
  apply run_command_returns in H2 as [-> Hsup]. specialize (Hsup eq_refl).
  apply bind_returns in Hrun as (ready & st3 & H3 & Hrun).
  apply probe_returns in H3.
  apply bind_returns in Hrun as (u & st4 & H4 & Hrun).
  apply fallback_returns in H4.
  apply bind_returns in Hrun as (r5 & st5 & H5 & Hrun).
  apply run_command_returns in H5 as [-> Hloc]. specialize (Hloc eq_refl).
  injection Hrun as _ <-.
  cbn [called trace] in *. rewrite H4, H3 in *.
  exists [], ready. split; [constructor|]. split; [|split].
  - by rewrite <- !app_assoc.
  - by rewrite app_nil_r, length_app, Nat.add_comm in *.
  - rewrite app_nil_r. rewrite !length_app in Hloc. cbn [length] in Hloc.
    by replace (length (trace st) + 3 + length (fallback args ready))
      with (length (trace st) + 1 + 1 + 1 + length (fallback args ready))
      by lia.
Qed.

Lemma main_completes_in_order w args :
  completes_in_order w args (main w args).
Proof.
  destruct (preparation_emits prepares w args) as (Hensure & Hclone & Hadjust);
    [done|].
  unfold main.
  apply completes_in_order_bind; [done|intros _].
  apply completes_in_order_bind; [done|intros _].
  apply completes_in_order_bind; [apply emits_only_prepare|intros _].
  apply completes_in_order_bind; [apply emits_only_provision|intros _].
  apply completes_in_order_bind; [done|intros _].
  apply composition_completes.
Qed.

Lemma local_start_is_no_preparation args e :
  prepares e →
  e ≠ Ran (argv (compose_up_local_ai (profile args) (environment args))).
Proof.
  intros (a & -> & Ha) [= ->].
  apply preparation_addresses_no_project in Ha. apply Ha.
  apply (composition_addresses_project args), list_elem_of_lookup.
  by exists 2.
Qed.

End MainOutcomes.

(** X12: when the start-up command of the dependency does not succeed
    (it exits with a non-zero code, or [subprocess.run] raises), the run
    stops with the exception: its child processes are those of the
    preparation, the teardown and that command; it has neither probed
    nor slept nor started the local project. *)
Theorem failed_dependency_stops_the_run (w : World) (args : Args)
    (st : State) :
  (∀ n stdout,
     process w n (argv (compose_up_supabase (environment args)))
     ≠ Exited 0 stdout) →
  (main w args st).1 = Raised
  ∧ ∃ added,
      trace (main w args st).2 = trace st ++ added
      ∧ Forall (λ e, (prepares e
                      ∨ e = Ran (argv (compose_down (profile args)
                                         (environment args)))
                      ∨ e = Ran (argv (compose_up_supabase
                                         (environment args))))
                     ∧ e ≠ Ran (argv (compose_up_local_ai (profile args)
                                        (environment args))))
               added.
Proof.
  intros Hfail.
  set (ok := λ e, (prepares e
                   ∨ e = Ran (argv (compose_down (profile args)
                                      (environment args)))
                   ∨ e = Ran (argv (compose_up_supabase (environment args))))
                  ∧ e ≠ Ran (argv (compose_up_local_ai (profile args)
                                     (environment args)))).
  destruct (compose_down_ends (profile args) (environment args))
    as (_ & _ & Hdown_last).
  destruct (compose_up_supabase_ends (environment args))
    as (_ & _ & Hsup_file & _).
  destruct (compose_up_local_ai_ends (profile args) (environment args))
    as (_ & _ & Hloc_file & Hloc_last).
  assert (Hprep : ∀ e, prepares e → ok e).
  { intros e He. split; [by left|]. by apply local_start_is_no_preparation. }
  destruct (preparation_emits ok w args Hprep) as (Hensure & Hclone & Hadjust).
  assert (Hstops : stops_with ok (main w args)).
  { unfold main.
    apply stops_with_bind; [done|intros _].
    apply stops_with_bind; [done|intros _].
    apply stops_with_bind; [apply emits_only_prepare|intros _].
    apply stops_with_bind; [apply emits_only_provision|intros _].
    apply stops_with_bind; [done|intros _].
    apply stops_with_bind; [|intros _].
    { apply emits_only_run. split; [right; by left|].
      intros [= Heq%argv_inj]. congruence. }
    intros st'. rewrite bind_unfold, run_command_fails by apply Hfail.
    exists [Ran (argv (compose_up_supabase (environment args)))].
    split; [done|]. split; [|done].
    apply Forall_singleton. split; [right; by right|].
    intros [= Heq%argv_inj].
    rewrite Heq, Hloc_file in Hsup_file. discriminate Hsup_file. }
  destruct (Hstops st) as (added & Hlog & Hok & Hraised).
  split; [done|by exists added].
Qed.

Lemma failed_dependency_stops_the_run_witness :
  let w := with_process fresh_world
             (λ n a, if bool_decide (a = argv (compose_up_supabase "private"))
                     then Exited 1 []
                     else process fresh_world n a) in
  (∀ n stdout,
     process w n (argv (compose_up_supabase (environment default_args)))
     ≠ Exited 0 stdout)
  ∧ (main w default_args fresh_state).1 = Raised
  ∧ ∃ added,
      trace (main w default_args fresh_state).2 = trace fresh_state ++ added
      ∧ Forall (λ e, (prepares e
                      ∨ e = Ran (argv (compose_down (profile default_args)
                                         (environment default_args)))
                      ∨ e = Ran (argv (compose_up_supabase
                                         (environment default_args))))
                     ∧ e ≠ Ran (argv (compose_up_local_ai
                                        (profile default_args)
                                        (environment default_args))))
               added.
Proof.
  split; [by vm_compute|].
  apply (failed_dependency_stops_the_run
           (with_process fresh_world
              (λ n a, if bool_decide (a = argv (compose_up_supabase "private"))
                      then Exited 1 []
                      else process fresh_world n a))
           default_args fresh_state).
  by vm_compute.
Defined.

(** X13: a run that returns has executed, after nothing but the child
    processes of the preparation, the teardown, the dependency start-up,
    the probe, the fallback sleep if one is due, and the local start-up,
    in this order; and both start-up commands have ended with return
    code 0. *)
Theorem completed_run_is_ordered (w : World) (args : Args) (st st' : State) :
  main w args st = (Returned (), st') →
  ∃ pre ready,
    Forall prepares pre
    ∧ trace st'
      = trace st ++ pre
        ++ [Ran (argv (compose_down (profile args) (environment args)));
            Ran (argv (compose_up_supabase (environment args)));
            Probed (pg_port args) ready]
        ++ fallback args ready
        ++ [Ran (argv (compose_up_local_ai (profile args)
                         (environment args)))]
    ∧ succeeded w (length (trace st ++ pre) + 1)
        (compose_up_supabase (environment args))
    ∧ succeeded w (length (trace st ++ pre) + 3
                   + length (fallback args ready))
        (compose_up_local_ai (profile args) (environment args)).
Proof. apply main_completes_in_order. Qed.

Lemma completed_run_is_ordered_witness :
  ∃ st',
    main fresh_world default_args fresh_state = (Returned (), st')
    ∧ ∃ pre ready,
        Forall prepares pre
        ∧ trace st'
          = trace fresh_state ++ pre
            ++ [Ran (argv (compose_down (profile default_args)
                             (environment default_args)));
                Ran (argv (compose_up_supabase (environment default_args)));
                Probed (pg_port default_args) ready]
            ++ fallback default_args ready
            ++ [Ran (argv (compose_up_local_ai (profile default_args)
                             (environment default_args)))]
        ∧ succeeded fresh_world (length (trace fresh_state ++ pre) + 1)
            (compose_up_supabase (environment default_args))
        ∧ succeeded fresh_world
            (length (trace fresh_state ++ pre) + 3
             + length (fallback default_args ready))
            (compose_up_local_ai (profile default_args)
               (environment default_args)).
Proof.
  eexists. split; [by vm_compute|].
  eapply (completed_run_is_ordered fresh_world default_args fresh_state).
  by vm_compute.
Defined.


Section ToleratedFailures.

Variables (w : World) (args : Args) (f : nat → list text → run_result).

Local Abbreviation down :=
  (argv (compose_down (profile args) (environment args))).

Hypothesis same_elsewhere :
  ∀ n a, a ≠ argv git_fetch → a ≠ down → f n a = process w n a.

Hypothesis forgiven_there :
  ∀ n a, a = argv git_fetch ∨ a = down →
         forgiven (f n a) ∧ forgiven (process w n a).

Local Abbreviation w' := (with_process w f).

Lemma elsewhere a :
  a !! 1 ≠ Some (txt "fetch") → ¬ addresses_project a →
  a ≠ argv git_fetch ∧ a ≠ down.
Proof.
  intros Hword Hproject. split; intros ->.
  - by apply Hword.
  - apply Hproject, (composition_addresses_project args), list_elem_of_lookup.
    by exists 0.
Qed.

Lemma elsewhere_up cmd :
  cmd !! 1 = Some "compose" → last cmd = Some "-d" →
  argv cmd ≠ argv git_fetch ∧ argv cmd ≠ down.
Proof.
  intros Hword Hlast. split; intros Heq%argv_inj.
  - by rewrite Heq in Hword.
  - destruct (compose_down_ends (profile args) (environment args))
      as (_ & _ & H).
    rewrite Heq, H in Hlast. discriminate Hlast.
Qed.

Lemma subprocess_same a st :
  a ≠ argv git_fetch ∧ a ≠ down →
  subprocess_run w' a st = subprocess_run w a st.
Proof.
  intros [Hfetch Hdown]. unfold subprocess_run, with_process.
  cbn [process]. by rewrite same_elsewhere.
Qed.

Lemma run_command_same cmd allow_fail st :
  argv cmd ≠ argv git_fetch ∧ argv cmd ≠ down →
  run_command w' cmd allow_fail st = run_command w cmd allow_fail st.
Proof.
  intros [Hfetch Hdown]. unfold run_command, with_process.
  cbn [process]. by rewrite same_elsewhere.
Qed.

Lemma run_command_tolerated cmd {B} (k k' : M B) st :
  argv cmd = argv git_fetch ∨ argv cmd = down →
  (∀ st, k st = k' st) →
  (run_command w' cmd true;; k) st = (run_command w cmd true;; k') st.
Proof.
  intros Hcmd Hk.
  destruct (forgiven_there (length (trace st)) (argv cmd) Hcmd) as [Hf Hp].
  rewrite !bind_unfold. unfold run_command, with_process. cbn [process].
  destruct (f _ _) as [returncode1 stdout1| |],
           (process w _ _) as [returncode2 stdout2| |];
    try done; repeat (destruct (_ =? 0)%Z); cbn; apply Hk.
Qed.

Ltac elsewhere_literal :=
  apply elsewhere;
  [ let H := fresh in
    intros H; apply (inj Some), txt_inj in H; discriminate H
  | let H1 := fresh in
    let H2 := fresh in
    intros [H1 H2];
    first [ apply (inj Some), txt_inj in H1; discriminate H1
          | apply (inj Some), txt_inj in H2; discriminate H2 ] ].

Lemma ensure_same st : ensure_binaries w' st = ensure_binaries w st.
Proof.
  unfold ensure_binaries. change (which w') with (which w).
  destruct (List.filter _ _); [|done].
  apply bind_ext; [intros st0|done].
  apply subprocess_same. elsewhere_literal.
Qed.

Lemma try_same branches st :
  try_branches w' branches st = try_branches w branches st.
Proof.
  revert st. induction branches as [|branch rest IH]; intros st; [done|].
  cbn [try_branches]. apply bind_ext; [intros st0|intros r st0].
  - apply subprocess_same. elsewhere_literal.
  - destruct (contains _ _); [done|apply IH].
Qed.

Lemma clone_same st :
  clone_or_update_supabase w' st = clone_or_update_supabase w st.
Proof.
  unfold clone_or_update_supabase, resolve_supabase_branch.
  change (repo_exists w') with (repo_exists w).
  destruct (negb (repo_exists w)).
  - apply bind_ext; [intros st0|intros _ st0].
    { apply run_command_same. elsewhere_literal. }
    apply bind_ext; [apply try_same|intros branch st1].
    apply bind_ext; [intros st2|intros _ st2].
    { apply run_command_same. elsewhere_literal. }
    apply bind_ext; [intros st3|intros _ st3].
    { apply run_command_same. elsewhere_literal. }
    apply bind_ext; [intros st4|done].
    apply run_command_same. elsewhere_literal.
  - apply run_command_tolerated; [by left|intros st0].
    apply bind_ext; [intros st1|done].
    apply run_command_same. elsewhere_literal.
Qed.

Lemma adjust_same st : adjust_cap_drop w' st = adjust_cap_drop w st.
Proof.
  unfold adjust_cap_drop.
  apply bind_ext; [done|intros fs st0].
  destruct (compose_file fs) as [on_disk|]; [|done].
  apply bind_ext; [done|intros _ st1].
  apply bind_ext; [intros st2|intros ps st2].
  { apply subprocess_same. elsewhere_literal. }
  apply bind_ext; [intros st3|done].
  destruct (container_names ps.2) as [|name names]; [done|].
  apply bind_ext; [intros st4|done].
  apply subprocess_same. elsewhere_literal.
Qed.

Lemma main_same st : main w' args st = main w args st.
Proof.
  unfold main.
  apply bind_ext; [apply ensure_same|intros _ st0].
  apply bind_ext; [intros st1|intros _ st1].
  { unfold when. destruct (negb (skip_clone args)); [apply clone_same|done]. }
  apply bind_ext; [done|intros _ st2].
  apply bind_ext; [done|intros _ st3].
  apply bind_ext; [intros st4|intros _ st4].
  { unfold when.
    destruct (negb (no_cap_adjust args)); [apply adjust_same|done]. }
  apply run_command_tolerated; [by right|intros st5].
  apply bind_ext; [intros st6|intros _ st6].
  { apply run_command_same.
    destruct (compose_up_supabase_ends (environment args)) as (H1 & _ & _ & H).
    by apply elsewhere_up. }
  apply bind_ext; [done|intros ready st7].
  apply bind_ext; [done|intros _ st8].
  apply bind_ext; [intros st9|done].
  apply run_command_same.
  destruct (compose_up_local_ai_ends (profile args) (environment args))
    as (H1 & _ & _ & H).
  by apply elsewhere_up.
Qed.

End ToleratedFailures.

(** X14: what the teardown and [git fetch --prune] do makes no
    difference to a run, as long as each of them exits (with whatever
    return code) or is not found, the two failures [run_command]
    catches: with any other such outcome of these two commands, the run
    ends the same way, with the same files, the same clock and the same
    trace. *)
Theorem tolerated_failures_change_nothing (w : World) (args : Args)
    (f : nat → list text → run_result) (st : State) :
  (∀ n a, a ≠ argv git_fetch →
          a ≠ argv (compose_down (profile args) (environment args)) →
          f n a = process w n a) →
  (∀ n a, a = argv git_fetch
          ∨ a = argv (compose_down (profile args) (environment args)) →
          forgiven (f n a) ∧ forgiven (process w n a)) →
  main (with_process w f) args st = main w args st.
Proof. intros Hsame Hforgiven. by apply main_same. Qed.

Lemma tolerated_failures_change_nothing_witness :
  let f := λ (n : nat) (a : list text),
    if bool_decide (a = argv git_fetch ∨ a = argv (compose_down "cpu" "private"))
    then RaisedNotFound else process fresh_world n a in
  (∀ n a, a ≠ argv git_fetch →
          a ≠ argv (compose_down (profile default_args)
                      (environment default_args)) →
          f n a = process fresh_world n a)
  ∧ (∀ n a, a = argv git_fetch
            ∨ a = argv (compose_down (profile default_args)
                          (environment default_args)) →
            forgiven (f n a) ∧ forgiven (process fresh_world n a))
  ∧ main (with_process fresh_world f) default_args fresh_state
    = main fresh_world default_args fresh_state.
Proof.
  set (f := λ (n : nat) (a : list text),
    if bool_decide (a = argv git_fetch ∨ a = argv (compose_down "cpu" "private"))
    then RaisedNotFound else process fresh_world n a).
  assert (Hsame : ∀ n a, a ≠ argv git_fetch →
            a ≠ argv (compose_down (profile default_args)
                        (environment default_args)) →
            f n a = process fresh_world n a).
  { intros n a Hfetch Hdown. unfold f.
    rewrite bool_decide_eq_false_2; [done|]. by intros [?|?]. }
  assert (Hforgiven : ∀ n a, a = argv git_fetch
            ∨ a = argv (compose_down (profile default_args)
                          (environment default_args)) →
            forgiven (f n a) ∧ forgiven (process fresh_world n a)).
  { intros n a Ha. unfold f. by rewrite bool_decide_eq_true_2. }
  split; [exact Hsame|]. split; [exact Hforgiven|].
  exact (tolerated_failures_change_nothing fresh_world default_args f
           fresh_state Hsame Hforgiven).
Defined.

Section Preparation.

Implicit Types (w : World) (args : Args) (st : State).

Lemma same_files_returns {A} (m : M A) st a st1 :
  same_files m → m st = (Returned a, st1) → files st1 = files st.
Proof. intros Hm Hrun. specialize (Hm st). by rewrite Hrun in Hm. Qed.

Lemma put_supabase_env_same fs : put_supabase_env (supabase_env fs) fs = fs.
Proof. by destruct fs. Qed.

Lemma put_settings_same fs : put_settings (settings fs) fs = fs.
Proof. by destruct fs. Qed.

Lemma put_compose_file_same fs : put_compose_file (compose_file fs) fs = fs.
Proof. by destruct fs. Qed.

(** A call of the Environment Merger that returns leaves what
    [prepare_supabase_env] says. *)
Lemma prepare_env_returns w st a st1 :
  prepare_env w st = (Returned a, st1) →
  files st1
  = put_supabase_env
      (prepare_supabase_env (root_env (files st)) (supabase_env (files st))).1
      (files st).
Proof.
  unfold prepare_env, prepare_supabase_env, get_files.
  rewrite bind_unfold.
  destruct (root_env (files st)) as [src|].
  2: { intros [= _ <-]. cbn [fst]. by rewrite put_supabase_env_same. }
  destruct (supabase_env (files st)) as [dest|] eqn:Hdest.
  2: { unfold write_file. destruct (io_raises w CopyEnv); [done|].
       by intros [= _ <-]. }
  rewrite !bind_unfold. unfold read_file.
  destruct (io_raises w ReadEnvDest); [done|].
  destruct (io_raises w ReadEnvSrc); [done|].
  destruct (additions src dest) as [|l ls].
  - intros [= _ <-]. cbn [fst]. by rewrite <- Hdest, put_supabase_env_same.
  - unfold write_file. destruct (io_raises w AppendEnv); [done|].
    by intros [= _ <-].
Qed.

Lemma read_file_returns w op st u st1 :
  read_file w op st = (Returned u, st1) → st1 = st.
Proof. unfold read_file. destruct (io_raises w op); [done|]. by intros [= _ <-]. Qed.

Lemma write_file_returns w op put content st u st1 :
  write_file w op put content st = (Returned u, st1) →
  files st1 = put (Some content) (files st).
Proof.
  unfold write_file. destruct (io_raises w op); [done|]. by intros [= _ <-].
Qed.

(** A call of the Secret Provisioner that returns leaves what
    [generate_searxng_secret_key] says. *)
Lemma provision_secret_returns w st a st1 :
  provision_secret w st = (Returned a, st1) →
  files st1
  = put_settings
      (generate_searxng_secret_key (random_bytes w)
         (settings_base (files st)) (settings (files st))).1
      (files st).
Proof.
  unfold provision_secret, generate_searxng_secret_key. intros Hrun.
  apply bind_returns in Hrun as (fs & st0 & [= <- <-] & Hrun).
  destruct (settings_base (files st)) as [base|].
  2: { injection Hrun as _ <-. cbn [fst]. by rewrite put_settings_same. }
  apply bind_returns in Hrun as (u & st2 & Hcopy & Hrun).
  apply bind_returns in Hrun as (u' & st3 & ->%read_file_returns & Hrun).
  apply bind_returns in Hrun as (fs' & st4 & [= <- <-] & Hrun).
  destruct (settings (files st)) as [on_disk|] eqn:Hsettings.
  - injection Hcopy as _ <-. rewrite Hsettings in Hrun. cbn zeta in *.
    destruct (negb (contains placeholder (universal_newlines on_disk))).
    + injection Hrun as _ <-. cbn [fst].
      by rewrite <- Hsettings, put_settings_same.
    + by apply write_file_returns in Hrun.
  - apply write_file_returns in Hcopy. rewrite Hcopy in Hrun.
    cbn [put_settings settings] in Hrun. cbn zeta in *.
    destruct (negb (contains placeholder (universal_newlines base))).
    + by injection Hrun as _ <-.
    + apply write_file_returns in Hrun. by rewrite Hrun, Hcopy.
Qed.

(** A call of the Capability Toggle Manager that returns leaves what
    [adjust_cap_drop_first_run] says for one of the two answers to
    the question whether this is the first run. *)
Lemma adjust_cap_drop_returns w st a st1 :
  adjust_cap_drop w st = (Returned a, st1) →
  ∃ first_run,
    files st1
    = put_compose_file
        (adjust_cap_drop_first_run first_run (compose_file (files st)))
        (files st).
Proof.
  unfold adjust_cap_drop. intros Hrun.
  apply bind_returns in Hrun as (fs & st0 & [= <- <-] & Hrun).
  destruct (compose_file (files st)) as [on_disk|] eqn:Hcompose.
  2: { injection Hrun as _ <-. exists true.
       cbn [adjust_cap_drop_first_run].
       by rewrite <- Hcompose, put_compose_file_same. }
  apply bind_returns in Hrun as (u & st2 & Hread & Hrun).
  apply (same_files_returns _ _ _ _ (same_files_read _ _)) in Hread.
  apply bind_returns in Hrun as (ps & st3 & Hps & Hrun).
  apply (same_files_returns _ _ _ _ (same_files_subprocess _ _)) in Hps.
  apply bind_returns in Hrun as (first_run & st4 & Hfirst & Hrun).
  assert (Hst4 : files st4 = files st3).
  { destruct (container_names ps.2); [by injection Hfirst as _ <-|].
    revert Hfirst. apply same_files_returns.
    apply same_files_bind; [apply same_files_subprocess|done]. }
  exists first_run. unfold adjust_cap_drop_first_run.
  destruct (toggle first_run (universal_newlines on_disk))
    as [content modified].
  destruct modified.
  - unfold write_file in Hrun. destruct (io_raises w WriteCompose); [done|].
    injection Hrun as _ <-. cbn [files]. by rewrite Hst4, Hps, Hread.
  - injection Hrun as _ <-.
    by rewrite Hst4, Hps, Hread, <- Hcompose, put_compose_file_same.
Qed.

Lemma main_returns_prepared w args st a st' :
  main w args st = (Returned a, st') →
  ∃ first_run, files st' = prepared_files w args first_run (files st).
Proof.
  unfold main. intros Hrun.
  apply bind_returns in Hrun as (u1 & st1 & H1 & Hrun).
  apply (same_files_returns _ _ _ _ (same_files_ensure _)) in H1.
  apply bind_returns in Hrun as (u2 & st2 & H2 & Hrun).
  apply (same_files_returns _ _ _ _
           (same_files_when _ _ (same_files_clone _))) in H2.
  apply bind_returns in Hrun as (u3 & st3 & H3 & Hrun).
  apply prepare_env_returns in H3.
  apply bind_returns in Hrun as (u4 & st4 & H4 & Hrun).
  apply provision_secret_returns in H4.
  apply bind_returns in Hrun as (u5 & st5 & H5 & Hrun).
  apply (same_files_returns _ _ _ _ (same_files_composition _ _)) in Hrun.
  rewrite H2, H1 in H3. rewrite H3 in H4. cbn [put_supabase_env
    settings_base settings] in H4.
  unfold prepared_files, when in *.
  destruct (no_cap_adjust args); cbn [negb] in H5.
  - injection H5 as _ <-. exists true. by rewrite Hrun, H4.
  - apply adjust_cap_drop_returns in H5 as [first_run H5].
    exists first_run. rewrite Hrun, H5, H4. done.
Qed.

End Preparation.

(** X15: a run that returns has applied the three preparation steps to
    the files, and nothing else: [supabase/docker/.env] is what the
    Environment Merger makes of it, [settings.yml] what the Secret
    Provisioner makes of it, and [docker-compose.yml], unless
    [--no-cap-adjust] is given, what the Capability Toggle Manager makes
    of it for one of the two answers to the first-run question. *)
Theorem completed_run_has_prepared_files (w : World) (args : Args)
    (st st' : State) :
  main w args st = (Returned (), st') →
  ∃ first_run, files st' = prepared_files w args first_run (files st).
Proof. apply main_returns_prepared. Qed.

Lemma completed_run_has_prepared_files_witness :
  ∃ st',
    main fresh_world default_args stocked_state = (Returned (), st')
    ∧ ∃ first_run,
        files st'
        = prepared_files fresh_world default_args first_run
            (files stocked_state).
Proof.
  eexists. split; [by vm_compute|].
  eapply (completed_run_has_prepared_files fresh_world default_args
            stocked_state).
  by vm_compute.
Defined.
